(** * powerschool-save: the bounded page pool and the scraping glue

    A shallow embedding of [src/index.ts] and [src/run.ts].

    - [Pool]: class [Tabs], the bounded pool of browser pages, as a
      transition system whose atomic steps are the stretches of code
      between two suspension points ([await]) of the reconciliation loop.
    - [Sanitize]: [sanitizeFilename].
    - [Retry]: the per-page retry loop of [PowerSchoolSave.savePages].
    - [Scrape]: the login guards of the scraping operations.
    - [EntryPoint]: [run.ts]. *)

From stdpp Require Import base option list gmap strings.
From Stdlib Require Import ZArith Lia.

(* ===================================================================== *)
(** * The bounded page pool (class [Tabs]) *)
(* ===================================================================== *)
Module Pool.

(** A [puppeteer.Page] handle is identified by the rank of the
    [browser.newPage()] call that produced it. *)
Abbreviation Page := nat.

(** The [resolve] callback pushed by [create()] is identified by the rank of
    the [create()] call that built it. *)
Abbreviation Resolver := nat.

(** The browser session as the pool sees it: how many pages [newPage] has
    produced, and which of them have been closed. *)
Record Browser := mkBrowser {
  pages : nat;
  closed : gset Page
}.

(** [tab.isClosed()] *)
Definition isClosed (b : Browser) (tab : Page) : bool :=
  bool_decide (tab ∈ closed b).

(** The fields of [Tabs] (the [browser] field is the shared session, kept in
    [World]). *)
Record Tabs := mkTabs {
  tabs : list Page;
  pending : list Resolver;
  max : Z;
  count : Z
}.

(** State of the promise returned by one [create()] call. *)
Inductive PromiseState :=
| Unsettled
| Fulfilled (tab : Page)
| Rejected.

(** Where the detached reconciliation task of the constructor is suspended. *)
Inductive Loop :=
| AfterCull                                   (* await this.cullDeadTabs() *)
| AwaitNewPage (p : Resolver)                 (* await this.browser.newPage() *)
| AwaitViewport (p : Resolver) (tab : Page)   (* await tab.setViewport(..) *)
| Sleeping                                    (* await timers.setTimeout(100) *)
| Crashed.                                    (* the task's promise rejected *)

Record World := mkWorld {
  pool : Tabs;
  browser : Browser;
  loop : Loop;
  (** one entry per [create()] call, in call order *)
  promises : list PromiseState;
  (** the calls [pending(tab)] made so far, oldest first *)
  resolved : list (Resolver * Page)
}.

(** ** [cullDeadTabs]

    [for (const [i, tab] of this.tabs.entries())
       if (tab.isClosed()) this.tabs.splice(i, 1)]

    The array iterator is live: each turn it compares its own index with the
    current length of the array and reads the current element at that index;
    [splice(i, 1)] removes the element at [i] in place. *)
Fixpoint cullFrom (b : Browser) (fuel i : nat) (ts : list Page) : list Page :=
  match fuel with
  | O => ts
  | S fuel' =>
      match ts !! i with
      | None => ts
      | Some tab =>
          if isClosed b tab
          then cullFrom b fuel' (S i) (delete i ts)
          else cullFrom b fuel' (S i) ts
      end
  end.

(** The iterator makes at most [length ts] turns (see [cullFrom_fuel]). *)
Definition cullDeadTabs (b : Browser) (ts : list Page) : list Page :=
  cullFrom b (length ts) 0 ts.

(** What the in-place scan amounts to on the part of the array that is still
    ahead of the iterator: after a removal the next element slides into the
    slot just visited and is never examined. *)
Fixpoint cullSkip (b : Browser) (skip : bool) (ts : list Page) : list Page :=
  match ts with
  | [] => []
  | tab :: rest =>
      if skip then tab :: cullSkip b false rest
      else if isClosed b tab then cullSkip b true rest
      else tab :: cullSkip b false rest
  end.

(** ** The steps of the pool *)

Definition setTabs (ts : list Page) (t : Tabs) : Tabs :=
  mkTabs ts (pending t) (max t) (count t).

Definition setPending (ps : list Resolver) (t : Tabs) : Tabs :=
  mkTabs (tabs t) ps (max t) (count t).

(** [new Promise(resolve => ..)] settles only through [resolve]; a second
    call of [resolve] changes nothing. *)
Definition resolve (p : Resolver) (tab : Page) (ps : list PromiseState)
  : list PromiseState :=
  match ps !! p with
  | Some Unsettled => <[p := Fulfilled tab]> ps
  | _ => ps
  end.

(** [constructor (browser, max)]: the fields are initialised and the detached
    task runs up to its first suspension, the [await] of [cullDeadTabs()] on
    the empty array. *)
Definition newTabs (mx : Z) : World :=
  mkWorld (mkTabs [] [] mx 0%Z) (mkBrowser 0 ∅) AfterCull [] [].

(** [create()]: the promise's executor pushes [resolve] on [this.pending]. *)
Definition create (w : World) : World :=
  mkWorld (setPending (pending (pool w) ++ [length (promises w)]) (pool w))
          (browser w) (loop w)
          (promises w ++ [Unsettled]) (resolved w).

(** The head of [while (this.tabs.length < this.max)], up to the next
    suspension: either the call [this.browser.newPage()], or the [return]
    that sends the task to [timers.setTimeout(100)]. *)
Definition admitPending (w : World) : World :=
  let t := pool w in
  if (Z.of_nat (length (tabs t)) <? max t)%Z then
    match pending t with
    | [] => mkWorld t (browser w) Sleeping (promises w) (resolved w)
    | p :: rest =>
        mkWorld (setPending rest t) (browser w) (AwaitNewPage p)
                (promises w) (resolved w)
    end
  else mkWorld t (browser w) Sleeping (promises w) (resolved w).

(** After [await tab.setViewport(..)]:
    [this.tabs.push(tab); pending(tab); this.count++], then the loop head. *)
Definition pushAndResolve (p : Resolver) (tab : Page) (w : World) : World :=
  let t := pool w in
  admitPending (mkWorld (mkTabs (tabs t ++ [tab]) (pending t) (max t) (count t + 1)%Z)
                 (browser w) (loop w)
                 (resolve p tab (promises w))
                 (resolved w ++ [(p, tab)])).

Inductive Event :=
| Create              (* some caller invokes create() *)
| Close (tab : Page)  (* a page is closed from outside the pool *)
| Timer               (* timers.setTimeout(100) fulfils *)
| Resume              (* the task resumes after await this.cullDeadTabs() *)
| NewPageDone         (* browser.newPage() fulfils *)
| NewPageFailed       (* browser.newPage() rejects *)
| ViewportDone        (* tab.setViewport(..) fulfils *)
| ViewportFailed.     (* tab.setViewport(..) rejects *)

(** A page of the session is closed: [tab.isClosed()] answers true from now
    on. The pool is not told. *)
Definition closePage (tab : Page) (w : World) : World :=
  mkWorld (pool w)
          (mkBrowser (pages (browser w)) ({[tab]} ∪ closed (browser w)))
          (loop w) (promises w) (resolved w).

(** The timer has fired: [createPendingTabs()] is called and runs
    [cullDeadTabs()] up to the [await] of its result. *)
Definition startPass (w : World) : World :=
  mkWorld (setTabs (cullDeadTabs (browser w) (tabs (pool w))) (pool w))
          (browser w) AfterCull (promises w) (resolved w).

(** [browser.newPage()] has produced a page; [tab.setViewport(..)] is
    called on it. *)
Definition pageCreated (p : Resolver) (w : World) : World :=
  mkWorld (pool w)
          (mkBrowser (S (pages (browser w))) (closed (browser w)))
          (AwaitViewport p (pages (browser w)))
          (promises w) (resolved w).

(** An awaited call of the browser has rejected: so does the promise of the
    detached task, and with it the loop ends. *)
Definition crash (w : World) : World :=
  mkWorld (pool w) (browser w) Crashed (promises w) (resolved w).

(** One atomic step; [None] when the event cannot happen in this state. *)
Definition exec (e : Event) (w : World) : option World :=
  match e, loop w with
  | Create, _ => Some (create w)
  | Close tab, _ =>
      if decide (tab < pages (browser w)) then Some (closePage tab w) else None
  | Timer, Sleeping => Some (startPass w)
  | Resume, AfterCull => Some (admitPending w)
  | NewPageDone, AwaitNewPage p => Some (pageCreated p w)
  | NewPageFailed, AwaitNewPage _ => Some (crash w)
  | ViewportDone, AwaitViewport p tab => Some (pushAndResolve p tab w)
  | ViewportFailed, AwaitViewport _ _ => Some (crash w)
  | _, _ => None
  end.

(** The same steps as a relation. *)
Inductive step (w : World) : Event → World → Prop :=
| step_create :
    step w Create (create w)
| step_close tab :
    tab < pages (browser w) → step w (Close tab) (closePage tab w)
| step_timer :
    loop w = Sleeping → step w Timer (startPass w)
| step_resume :
    loop w = AfterCull → step w Resume (admitPending w)
| step_newPage p :
    loop w = AwaitNewPage p → step w NewPageDone (pageCreated p w)
| step_newPageFailed p :
    loop w = AwaitNewPage p → step w NewPageFailed (crash w)
| step_viewport p tab :
    loop w = AwaitViewport p tab → step w ViewportDone (pushAndResolve p tab w)
| step_viewportFailed p tab :
    loop w = AwaitViewport p tab → step w ViewportFailed (crash w).

Fixpoint run (es : list Event) (w : World) : option World :=
  match es with
  | [] => Some w
  | e :: es' =>
      match exec e w with
      | Some w' => run es' w'
      | None => None
      end
  end.

(** The pool is between two admissions: the current pass has culled and not
    yet pushAndResolve, or has returned. *)
Definition reconciled (w : World) : Prop :=
  loop w = AfterCull ∨ loop w = Sleeping.

(** The step that ends the creation of a page: [this.count++] is part of
    it. *)
Definition completesTab (e : Event) : bool :=
  match e with
  | ViewportDone => true
  | _ => false
  end.

Definition isClose (e : Event) : bool :=
  match e with
  | Close _ => true
  | _ => false
  end.

(** No capacity can free up by itself: the pool is between two admissions,
    it is full, and none of its pages is closed. *)
Definition saturated (w : World) : Prop :=
  reconciled w ∧
  (max (pool w) ≤ Z.of_nat (length (tabs (pool w))))%Z ∧
  Forall (λ tab, isClosed (browser w) tab = false) (tabs (pool w)).

(** ** Invariants *)

(** While a page is being created for a request there is room for it. *)
Definition capacityInv (w : World) : Prop :=
  match loop w with
  | AwaitNewPage _ | AwaitViewport _ _ =>
      (Z.of_nat (length (tabs (pool w))) < max (pool w))%Z
  | _ => (Z.of_nat (length (tabs (pool w))) ≤ max (pool w))%Z
  end.

(** The first [k] calls of [pending(tab)]: request [i] received page [i]. *)
Definition handedOut (k : nat) : list (Resolver * Page) :=
  (λ i, (i, i)) <$> seq 0 k.

(** [k] fulfilled promises followed by [m] unsettled ones. *)
Definition settledUpTo (k m : nat) : list PromiseState :=
  (Fulfilled <$> seq 0 k) ++ replicate m Unsettled.

(** The queue and the page count of the browser, by the place where the
    reconciliation task is suspended; [k] requests are served and [m] are
    not. *)
Inductive queued : Loop → nat → nat → list Resolver → nat → Prop :=
| queued_cull k m : queued AfterCull k m (seq k m) k
| queued_sleep k m : queued Sleeping k m (seq k m) k
| queued_newPage k m : queued (AwaitNewPage k) k (S m) (seq (S k) m) k
| queued_viewport k m : queued (AwaitViewport k k) k (S m) (seq (S k) m) (S k)
| queued_crashed k m ps n : k ≤ n ≤ S k → queued Crashed k m ps n.

Record Inv (w : World) (k m : nat) : Prop := mkInv {
  inv_count : count (pool w) = Z.of_nat k;
  inv_resolved : resolved w = handedOut k;
  inv_promises : promises w = settledUpTo k m;
  inv_queue : queued (loop w) k m (pending (pool w)) (pages (browser w))
}.

(** The pages of the session that [newPage] produced for the pool and that
    are not closed. *)
Definition openPages (w : World) : list Page :=
  filter (λ t, isClosed (browser w) t = false) (seq 0 (pages (browser w))).

(** What [this.tabs] holds: no handle twice, only handles given to a
    requester, every such handle that is still open; and there is room for
    the page being created, if any. *)
Definition ownsInv (w : World) : Prop :=
  let k := length (resolved w) in
  NoDup (tabs (pool w)) ∧
  (∀ t, t ∈ tabs (pool w) → t < k) ∧
  (∀ i, i < k → isClosed (browser w) i = false → i ∈ tabs (pool w)) ∧
  (Z.of_nat (length (tabs (pool w))) + Z.of_nat (pages (browser w) - k)
   ≤ max (pool w))%Z.

(** A pool that has never created a page: every request is queued. *)
Definition idleInv (w : World) : Prop :=
  tabs (pool w) = [] ∧ reconciled w ∧ resolved w = [] ∧
  pages (browser w) = 0 ∧ Forall (λ st, st = Unsettled) (promises w) ∧
  pending (pool w) = seq 0 (length (promises w)).

(** How many closed pages an array holds. *)
Definition closedCount (b : Browser) (ts : list Page) : nat :=
  length (filter (λ t, isClosed b t = true) ts).

(** [n] passes of [cullDeadTabs] over an array, nothing else happening. *)
Definition passes (b : Browser) (n : nat) (ts : list Page) : list Page :=
  Nat.iter n (cullDeadTabs b) ts.

(** A page is closed, then one pass runs and serves one request. *)
Definition closeAndServe (t : Page) : list Event :=
  [Close t; Timer; Resume; NewPageDone; ViewportDone].

(** ** A pool of capacity 2 and three requests *)

(** [create()] is called three times right after the constructor; the first
    pass serves two of the calls. *)
Definition threeRequests : list Event :=
  [Create; Create; Create;
   Resume; NewPageDone; ViewportDone; NewPageDone; ViewportDone].

(** A pass during which nothing has to be done. *)
Definition idlePass : list Event := [Timer; Resume].

(** The page of the first request is closed; then the next pass runs. *)
Definition closeFirst : list Event :=
  [Close 0; Timer; Resume; NewPageDone; ViewportDone].

Definition afterFirstPass : World :=
  mkWorld (mkTabs [0; 1] [2] 2 2) (mkBrowser 2 ∅) Sleeping
          [Fulfilled 0; Fulfilled 1; Unsettled] [(0, 0); (1, 1)].

Definition afterSecondPass : World :=
  mkWorld (mkTabs [1; 2] [] 2 3) (mkBrowser 3 {[0]}) Sleeping
          [Fulfilled 0; Fulfilled 1; Fulfilled 2] [(0, 0); (1, 1); (2, 2)].

(** Two requests are served, both pages are closed, and the next pass
    starts. *)
Definition closeBoth : list Event :=
  [Create; Create; Resume; NewPageDone; ViewportDone; NewPageDone;
   ViewportDone; Close 0; Close 1; Timer].

End Pool.

(* ===================================================================== *)
(** * [sanitizeFilename] *)
(* ===================================================================== *)
Module Sanitize.

(** A JavaScript string is a sequence of UTF-16 code units. *)
Abbreviation CodeUnit := N.
Abbreviation JSString := (list N).

Section Regex.

(** The upper-case mapping of Unicode on the code units outside ASCII:
    [None] where the upper-case form is not a single code unit. The regular
    expression below is read for every such table. *)
Variable upperNonAscii : CodeUnit -> option CodeUnit.

Definition toUpperCase (ch : CodeUnit) : option CodeUnit :=
  if (ch <? 128)%N then
    Some (if (97 <=? ch)%N && (ch <=? 122)%N then (ch - 32)%N else ch)
  else upperNonAscii ch.

(** [Canonicalize] of a pattern with flag [i] and without flag [u]. *)
Definition Canonicalize (ch : CodeUnit) : CodeUnit :=
  match toUpperCase ch with
  | None => ch
  | Some cu => if (128 <=? ch)%N && (cu <? 128)%N then ch else cu
  end.

(** The atoms of the class [[^a-z0-9\(\)\[\]\-, ]]: ranges of code units. *)
Definition classRanges : list (N * N) :=
  [ (97, 122); (48, 57); (40, 40); (41, 41); (91, 91); (93, 93);
    (45, 45); (44, 44); (32, 32) ]%N.

Definition rangeMembers (r : N * N) : list CodeUnit :=
  N.of_nat <$> seq (N.to_nat (fst r)) (S (N.to_nat (snd r)) - N.to_nat (fst r)).

Definition classMembers : list CodeUnit := classRanges ≫= rangeMembers.

(** The character-set matcher of the class with [invert] set: [ch] matches
    when no member of the set canonicalizes to the same code unit. *)
Definition matchesNegatedClass (ch : CodeUnit) : bool :=
  negb (existsb (fun a => (Canonicalize a =? Canonicalize ch)%N) classMembers).

(** [text.replace(/[^a-z0-9\(\)\[\]\-, ]/gi, '_')]: the pattern matches one
    code unit at a time, and with flag [g] every match is replaced. *)
Definition sanitizeFilename (text : JSString) : JSString :=
  (fun ch => if matchesNegatedClass ch then 95%N else ch) <$> text.

End Regex.

(** ASCII letters, digits, parentheses, square brackets, hyphen, comma,
    space and underscore. *)
Definition allowed (ch : CodeUnit) : bool :=
  ((65 <=? ch) && (ch <=? 90) || (97 <=? ch) && (ch <=? 122)
   || (48 <=? ch) && (ch <=? 57)
   || (ch =? 40) || (ch =? 41) || (ch =? 91) || (ch =? 93)
   || (ch =? 45) || (ch =? 44) || (ch =? 32) || (ch =? 95))%N.

(** The code units the class names, whatever their case. *)
Definition inClass (ch : CodeUnit) : bool :=
  ((65 <=? ch) && (ch <=? 90) || (97 <=? ch) && (ch <=? 122)
   || (48 <=? ch) && (ch <=? 57)
   || (ch =? 40) || (ch =? 41) || (ch =? 91) || (ch =? 93)
   || (ch =? 45) || (ch =? 44) || (ch =? 32))%N.

End Sanitize.

(* ===================================================================== *)
(** * Thrown values *)
(* ===================================================================== *)
Module Js.

(** What a [throw] or a rejected promise carries. *)
Inductive Thrown :=
| NotLoggedInError                          (* new NotLoggedInError() *)
| Error (message : string)                  (* another instance of Error *)
| Value (v : string).                       (* a value that is no Error *)

(** [error instanceof Error]; [NotLoggedInError extends Error]. *)
Definition instanceofError (v : Thrown) : bool :=
  match v with
  | NotLoggedInError | Error _ => true
  | Value _ => false
  end.

(** How an awaited call of the browser or the file system settles. *)
Inductive Outcome :=
| Fulfils
| Rejects (e : Thrown).

End Js.

(* ===================================================================== *)
(** * The per-page loop of [savePages] *)
(* ===================================================================== *)
Module Retry.
Import Js.

(** What the browser answers during one turn of [while (true)]. *)
Record Attempt := mkAttempt {
  tab : Pool.Page;            (* await this.tabs.create() *)
  goto : Outcome;             (* await tab.goto(page.href) *)
  expandComments : Outcome;   (* await tab.evaluate('CmsPageComments.toggle(..)') *)
  scroll : Outcome;           (* await tab.evaluate('setInterval(..)') *)
  waitStub : Outcome;         (* await tab.waitForSelector('div.stub', { hidden: true }) *)
  pdf : Outcome;              (* await tab.pdf(..) *)
  close : Outcome             (* await tab.close() *)
}.

(** The calls the loop makes, in order. *)
Inductive Action :=
| Acquire (t : Pool.Page)
| Goto (t : Pool.Page)
| ExpandComments (t : Pool.Page)
| Scroll (t : Pool.Page)
| WaitStub (t : Pool.Page)
| Pdf (t : Pool.Page)
| CloseTab (t : Pool.Page)
| LogSaved.

Inductive Result :=
| Returned                  (* return *)
| Threw (e : Thrown)        (* the callback's promise rejects *)
| Waiting.                  (* suspended at await this.tabs.create() *)

(** [await call]: the calls made so far, then the rest or the rejection. *)
Definition await (o : Outcome) (done : list Action)
    (k : list Action * Result) : list Action * Result :=
  match o with
  | Rejects e => (done, Threw e)
  | Fulfils => (done ++ fst k, snd k)
  end.

Section Loop.

(** [this.headless], and whether [this.tabs] is set. *)
Variables (headless loggedIn : bool).

(** The body of [pages.map(async (page, i) => { while (true) { .. } })], one
    element of the list per turn of the loop. *)
Fixpoint pageLoop (attempts : list Attempt) : list Action * Result :=
  if negb loggedIn then ([], Threw NotLoggedInError) else
  match attempts with
  | [] => ([], Waiting)
  | a :: rest =>
      let t := tab a in
      await (goto a) [Acquire t; Goto t]
     (await (expandComments a) [ExpandComments t]
     (await (scroll a) [Scroll t]
     (match waitStub a with
      | Rejects _ =>
          (* catch { await tab.close(); continue } *)
          await (close a) [WaitStub t; CloseTab t] (pageLoop rest)
      | Fulfils =>
          await (if headless then pdf a else Fulfils)
                (WaitStub t :: if headless then [Pdf t] else [])
         (await (close a) [CloseTab t]
                ([LogSaved], Returned))
      end)))
  end.

End Loop.

(** A turn in which only the wait for the stub fails. *)
Definition timesOut (a : Attempt) : Prop :=
  goto a = Fulfils ∧ expandComments a = Fulfils ∧ scroll a = Fulfils ∧
  (∃ e, waitStub a = Rejects e) ∧ close a = Fulfils.

(** The calls of such a turn. *)
Definition retryTrace (a : Attempt) : list Action :=
  [Acquire (tab a); Goto (tab a); ExpandComments (tab a); Scroll (tab a);
   WaitStub (tab a); CloseTab (tab a)].

(** A turn in which every call fulfils, the PDF step included when it runs. *)
Definition succeeds (headless : bool) (a : Attempt) : Prop :=
  goto a = Fulfils ∧ expandComments a = Fulfils ∧ scroll a = Fulfils ∧
  waitStub a = Fulfils ∧ (headless = true → pdf a = Fulfils) ∧
  close a = Fulfils.

Definition successTrace (headless : bool) (a : Attempt) : list Action :=
  [Acquire (tab a); Goto (tab a); ExpandComments (tab a); Scroll (tab a);
   WaitStub (tab a)] ++ (if headless then [Pdf (tab a)] else []) ++
  [CloseTab (tab a); LogSaved].

(** How many tabs a run of the loop acquired, and how many it closed
    or tried to close. *)
Definition acquired (tr : list Action) : nat :=
  length (List.filter (λ a, match a with Acquire _ => true | _ => false end) tr).

Definition released (tr : list Action) : nat :=
  length (List.filter (λ a, match a with CloseTab _ => true | _ => false end) tr).

(** The last call of the run was [tab.close()]. *)
Definition endsWithClose (tr : list Action) : bool :=
  match last tr with
  | Some (CloseTab _) => true
  | _ => false
  end.

(** What a run of the loop owes the pool: nothing when it returns or
    waits; after a rejection, the last tab unless the rejected call is the
    closing of that tab. *)
Definition balanced (tr : list Action) (r : Result) : Prop :=
  match r with
  | Returned | Waiting => acquired tr = released tr
  | Threw _ =>
      tr ≠ [] ∧
      if endsWithClose tr then acquired tr = released tr
      else acquired tr = S (released tr)
  end.

(** A turn on tab [t] in which the stub never disappears in time, and one in
    which the page renders. *)
Definition timedOut (t : Pool.Page) : Attempt :=
  mkAttempt t Fulfils Fulfils Fulfils
            (Rejects (Error "TimeoutError")) Fulfils Fulfils.

Definition rendered (t : Pool.Page) : Attempt :=
  mkAttempt t Fulfils Fulfils Fulfils Fulfils Fulfils Fulfils.

End Retry.

(* ===================================================================== *)
(** * The scraping operations of [PowerSchoolSave] and their login guards *)
(* ===================================================================== *)
Module Scrape.
Import Js.

(** A path, as its segments; [path.join(p, seg)]. *)
Definition Path := list string.
Definition join (p : Path) (seg : string) : Path := p ++ [seg].
Definition dirname (p : Path) : Path := removelast p.

Inductive LogLine :=
| TabsTotal (count : Z)       (* console.log(this.tabs.count, 'tabs total.') *)
| Saved (what : string).      (* console.log('Saved', ..) *)

(** What the operations act on: the directories that exist, and the lines
    written by [console.log]. *)
Record World := mkWorld {
  dirs : gset Path;
  stdout : list LogLine
}.

Inductive Res (A : Type) :=
| Ok (a : A)
| Throw (e : Thrown).
Arguments Ok {A} a.
Arguments Throw {A} e.

(** An [async] operation, run to completion: its result, the world it
    leaves, and the time it takes to settle, counted from its call. An
    operation that throws before its first [await], or returns without one,
    settles at time 0. *)
Definition M (A : Type) : Type := World → Res A * World * nat.

#[export] Instance M_ret : MRet M := λ A a w, (Ok a, w, 0).
#[export] Instance M_bind : MBind M := λ A B f m w,
  match m w with
  | (Ok a, w', t) => let '(r, w'', t') := f a w' in (r, w'', t + t')
  | (Throw e, w', t) => (Throw e, w', t)
  end.

Definition throw {A} (e : Thrown) : M A := λ w, (Throw e, w, 0).

Definition log (l : LogLine) : M unit :=
  λ w, (Ok (), mkWorld (dirs w) (stdout w ++ [l]), 0).

(** [await fs.mkdir(p)], not recursive; the call settles one tick later. *)
Definition mkdir (p : Path) : M unit := λ w,
  if decide (p ∈ dirs w) then (Throw (Error "EEXIST"), w, 1)
  else if decide (dirname p ∈ dirs w)
       then (Ok (), mkWorld ({[p]} ∪ dirs w) (stdout w), 1)
       else (Throw (Error "ENOENT"), w, 1).

(** The calls [ms] of a [Promise.all(ms)], made in array order: each one is
    listed with its result and the time it takes. Every call is made and
    leaves its effects, whether or not another one rejects. The effects are
    threaded in array order: their interleaving at suspension points is not
    represented. *)
Fixpoint settleAll (ms : list (M unit)) (w : World)
  : list (Res unit * nat) * World :=
  match ms with
  | [] => ([], w)
  | m :: rest =>
      let '(r, w1, t) := m w in
      let '(rs, w2) := settleAll rest w1 in
      ((r, t) :: rs, w2)
  end.

(** The rejection that happens first in time; of two rejections at the same
    time, that of the earlier call. *)
Fixpoint firstRejection (rs : list (Res unit * nat)) : option (Thrown * nat) :=
  match rs with
  | [] => None
  | (Ok _, _) :: rest => firstRejection rest
  | (Throw e, t) :: rest =>
      match firstRejection rest with
      | Some (e', t') => if t' <? t then Some (e', t') else Some (e, t)
      | None => Some (e, t)
      end
  end.

(** [await Promise.all(ms)]: it rejects with the first rejection in time, at
    that time; it fulfils when the last call has fulfilled. The world it
    leaves holds the effects of all the calls, also of those that end
    later. *)
Definition promiseAll (ms : list (M unit)) : M unit := λ w,
  let '(rs, w') := settleAll ms w in
  match firstRejection rs with
  | Some (e, t) => (Throw e, w', t)
  | None => (Ok (), w', foldr Nat.max 0 (snd <$> rs))
  end.

(** A reference to the [Tabs] object. *)
Definition TabsRef := nat.

Record PowerSchoolSave := mkPowerSchoolSave {
  root : string;
  out : Path;
  headless : bool;
  maxTabs : Z;
  tabs : option TabsRef
}.

Record Options := mkOptions {
  optHeadless : option bool;
  optMaxTabs : option Z
}.

(** [constructor (root, out, opts)]: [this.tabs] is left unset. *)
Definition newPowerSchoolSave (root : string) (out : Path) (opts : Options)
  : PowerSchoolSave :=
  mkPowerSchoolSave root out
    (match optHeadless opts with Some false => false | _ => true end)
    (default 5%Z (optMaxTabs opts))
    None.

Record PowerSchoolClassResolvable := mkClass {
  name : string;
  url : string
}.

(** The browser-driven parts of the operations: what each one does with the
    pool once its guard has passed. *)
Record Browse := mkBrowse {
  (* saveClasses: create .. tab.close() *)
  listClasses : TabsRef → M (list PowerSchoolClassResolvable);
  tabCount : TabsRef → M Z;
  (* saveClass: create .. tab.close(), giving classOut and classRoot *)
  openClass : TabsRef → PowerSchoolClassResolvable → M (Path * string);
  (* savePages: create .. the end *)
  scrapePages : TabsRef → Path → string → M unit;
  (* saveMessagesInbox, saveMessagesDrafts: create .. tab.close() *)
  scrapeInbox : TabsRef → Path → string → M unit;
  scrapeDrafts : TabsRef → Path → string → M unit;
  (* saveActivitiesAssignments: create .. await nextPage *)
  scrapeAssignments : TabsRef → Path → string → Z → M unit;
  (* saveActivitiesAssignmentWork: create .. the end *)
  scrapeWork : TabsRef → Path → string → string → M unit;
  (* saveActivitiesDiscussions: create .. tab.close() *)
  scrapeDiscussions : TabsRef → Path → string → M unit;
  (* saveGrades: create .. tab.close() *)
  scrapeGrades : TabsRef → Path → string → M unit
}.

Section Operations.

Context (B : Browse) (this : PowerSchoolSave).

(** [if (!this.tabs) throw new NotLoggedInError()] *)
Definition guard : M TabsRef :=
  match tabs this with
  | None => throw NotLoggedInError
  | Some t => mret t
  end.

Definition savePages (classOut : Path) (classRoot : string) : M unit :=
  t ← guard; scrapePages B t classOut classRoot.

Definition saveMessagesInbox (messagesOut : Path) (classRoot : string) : M unit :=
  t ← guard;
  let inboxOut := join messagesOut "Inbox" in
  mkdir inboxOut;;
  scrapeInbox B t inboxOut classRoot.

Definition saveMessagesDrafts (messagesOut : Path) (classRoot : string) : M unit :=
  t ← guard;
  let draftsOut := join messagesOut "Drafts" in
  mkdir draftsOut;;
  scrapeDrafts B t draftsOut classRoot.

Definition saveMessages (classOut : Path) (classRoot : string) : M unit :=
  let messages := join classOut "Messages" in
  mkdir messages;;
  promiseAll [ saveMessagesInbox messages classRoot;
               saveMessagesDrafts messages classRoot ].

Definition saveActivitiesAssignments (activitiesOut : Path)
    (classRoot : string) (page : option Z) : M unit :=
  t ← guard;
  let page := match page with None | Some 0%Z => 1%Z | Some p => p end in
  let assignmentsOut := join activitiesOut "Assignments" in
  (if decide (page = 1%Z) then mkdir assignmentsOut else mret ());;
  scrapeAssignments B t assignmentsOut classRoot page.

Definition saveActivitiesAssignmentWork (assignmentsOut : Path)
    (title href : string) : M unit :=
  t ← guard; scrapeWork B t assignmentsOut title href.

Definition saveActivitiesDiscussions (activitiesOut : Path)
    (classRoot : string) : M unit :=
  t ← guard; scrapeDiscussions B t activitiesOut classRoot.

Definition saveActivities (classOut : Path) (classRoot : string) : M unit :=
  let activitiesOut := join classOut "Activities" in
  mkdir activitiesOut;;
  promiseAll [ saveActivitiesAssignments activitiesOut classRoot None;
               saveActivitiesDiscussions activitiesOut classRoot ].

Definition saveGrades (classOut : Path) (classRoot : string) : M unit :=
  t ← guard; scrapeGrades B t classOut classRoot.

Definition saveClass (psClass : PowerSchoolClassResolvable) : M unit :=
  t ← guard;
  '(classOut, classRoot) ← openClass B t psClass;
  promiseAll [ savePages classOut classRoot;
               saveMessages classOut classRoot;
               saveActivities classOut classRoot;
               saveGrades classOut classRoot ];;
  log (Saved (name psClass)).

Definition saveClasses : M unit :=
  t ← guard;
  psClasses ← listClasses B t;
  promiseAll (saveClass <$> psClasses);;
  n ← tabCount B t;
  log (TabsTotal n).

End Operations.

(** A browser in which every scraping step fulfils at once and finds
    nothing. *)
Definition idleBrowse : Browse :=
  mkBrowse (λ _, mret []) (λ _, mret 0%Z) (λ _ _, mret ([], EmptyString))
           (λ _ _ _, mret ()) (λ _ _ _, mret ()) (λ _ _ _, mret ())
           (λ _ _ _ _, mret ()) (λ _ _ _ _, mret ()) (λ _ _ _, mret ())
           (λ _ _ _, mret ()).

(** The object [run.ts] builds, before [login] is called. *)
Definition beforeLogin : PowerSchoolSave :=
  newPowerSchoolSave "https://mylearning.powerschool.com" ["output"]
                     (mkOptions (Some true) (Some 10%Z)).

(** No directory exists yet. *)
Definition emptyDisk : World := mkWorld ∅ [].

(** The working directory and the output directory exist. *)
Definition outputDisk : World := mkWorld {[ []; ["output"] ]} [].

End Scrape.

(* ===================================================================== *)
(** * The entry point ([run.ts]) *)
(* ===================================================================== *)
Module EntryPoint.
Import Js.

(** [process.env], as far as the program reads it. *)
Record Env := mkEnv {
  USERNAME : option string;
  PASSWORD : option string
}.

(** [PasswordLoginStrategy.fromEnv()]: a variable counts as missing when it
    is unset or empty. *)
Definition fromEnv (env : Env) : Thrown + (string * string) :=
  match USERNAME env with
  | None | Some EmptyString => inl (Error "No USERNAME in environment.")
  | Some u =>
      match PASSWORD env with
      | None | Some EmptyString => inl (Error "No PASSWORD in environment.")
      | Some p => inr (u, p)
      end
  end.

(** What happens while the entry point awaits an operation: the operation
    writes lines with [console.log], and then it settles, or it never does
    while the process goes on, or a promise that nobody awaits rejects first
    (the loop that the constructor of the pool starts without a [catch], the
    call [button.click()] that [login] does not await). *)
Inductive Awaited :=
| Settles (logs : list (list string)) (o : Outcome)
| Never (logs : list (list string))
| Dies (logs : list (list string)) (reason : Thrown).

(** How the [try] block ends, and what has been written by then. *)
Inductive Body :=
| Completed (logs : list (list string))
| Caught (logs : list (list string)) (error : Thrown)
| Suspended (logs : list (list string))
| Killed (logs : list (list string)) (reason : Thrown).

Definition tryBlock (env : Env) (login saveClasses : Awaited) : Body :=
  match fromEnv env with
  | inl e => Caught [] e
  | inr _ =>
      match login with
      | Never l1 => Suspended l1
      | Dies l1 reason => Killed l1 reason
      | Settles l1 (Rejects e) => Caught l1 e
      | Settles l1 Fulfils =>
          match saveClasses with
          | Never l2 => Suspended (l1 ++ l2)
          | Dies l2 reason => Killed (l1 ++ l2) reason
          | Settles l2 (Rejects e) => Caught (l1 ++ l2) e
          | Settles l2 Fulfils => Completed (l1 ++ l2)
          end
      end
  end.

Record Process := mkProcess {
  stdout : list (list string);
  stderr : list (list string);
  exitStatus : option Z
}.

(** [process.exit(code)]: the status is [code], else [process.exitCode],
    else 0. *)
Definition exit (code exitCode : option Z) : Z :=
  default (default 0%Z exitCode) code.

Definition message (e : Thrown) : string :=
  match e with
  | Error m => m
  | _ => EmptyString
  end.

Section Main.

(** [error.stack], filled in by the runtime, and what the runtime prints for
    a rejection that nobody handles. *)
Variable stack : Thrown → string.
Variable report : Thrown → list string.

(** [console.log('Error:', error.message, error.stack)], for an instance of
    [Error] only. *)
Definition errorLine (error : Thrown) : list (list string) :=
  if instanceofError error
  then [["Error:"; message error; stack error]] else [].

(** The detached [async] function of [run.ts]. Nothing in the program assigns
    [process.exitCode], and both calls of [process.exit] take no argument.
    A rejection that nobody handles ends the process before the [try] block
    does: the runtime prints it on the standard error stream and the status
    is 1. *)
Definition main (env : Env) (login saveClasses : Awaited) : Process :=
  match tryBlock env login saveClasses with
  | Completed logs => mkProcess logs [] (Some (exit None None))
  | Caught logs error =>
      mkProcess (logs ++ errorLine error) [] (Some (exit None None))
  | Suspended logs => mkProcess logs [] None
  | Killed logs reason => mkProcess logs [report reason] (Some 1%Z)
  end.

End Main.

(** [!process.env.X]: the variable is unset or empty. *)
Definition missing (v : option string) : Prop :=
  v = None ∨ v = Some EmptyString.

End EntryPoint.

(* ===================================================================== *)
(** * [assertExists] and [PasswordLoginStrategy.login] *)
(* ===================================================================== *)
Module Login.
Import Js.

(** A value that may be [undefined] or [null]. *)
Inductive Maybe (A : Type) :=
| Undefined
| Null
| Present (a : A).
Arguments Undefined {A}.
Arguments Null {A}.
Arguments Present {A} a.

(** [assertExists(x)] *)
Definition assertExists {A} (x : Maybe A) : Thrown + A :=
  match x with
  | Undefined | Null => inl (Error "Something that should exist does not.")
  | Present a => inr a
  end.

Definition ERROR_TEXT : string :=
  "The username or password you entered is incorrect.".

(** What the login page answers to the calls of [login], in their order. *)
Record LoginPage := mkLoginPage {
  loginField : Thrown + Maybe unit;     (* await page.waitForSelector('#login') *)
  typeUsername : Outcome;               (* await username.type(..) *)
  passwordField : Thrown + Maybe unit;  (* await page.waitForSelector('#password') *)
  typePassword : Outcome;               (* await password.type(..) *)
  submitButton : Thrown + Maybe unit;   (* await page.waitForSelector('#loginsubmit') *)
  navigation : Outcome;                 (* await page.waitForNavigation() *)
  note : Thrown + Maybe unit;           (* await page.waitForSelector(.., { timeout: 1000 }) *)
  noteText : Thrown + string            (* await note.evaluate(div => div.innerText) *)
}.

(** [assertExists(await page.waitForSelector(..))] *)
Definition selected (r : Thrown + Maybe unit) : Thrown + unit :=
  match r with
  | inl e => inl e
  | inr x => assertExists x
  end.

(** [try { await page.waitForNavigation(); note = await page.waitForSelector(..) }
     catch {}]: [note] stays [undefined] when either call rejects. *)
Definition noteAfterSubmit (pg : LoginPage) : Maybe unit :=
  match navigation pg with
  | Rejects _ => Undefined
  | Fulfils =>
      match note pg with
      | inl _ => Undefined
      | inr n => n
      end
  end.

(** [PasswordLoginStrategy.login(page)]; the call [button.click()] is not
    awaited. *)
Definition login (pg : LoginPage) : Thrown + unit :=
  match selected (loginField pg) with
  | inl e => inl e
  | inr _ =>
  match typeUsername pg with
  | Rejects e => inl e
  | Fulfils =>
  match selected (passwordField pg) with
  | inl e => inl e
  | inr _ =>
  match typePassword pg with
  | Rejects e => inl e
  | Fulfils =>
  match selected (submitButton pg) with
  | inl e => inl e
  | inr _ =>
  match noteAfterSubmit pg with
  | Undefined | Null => inr ()
  | Present _ =>
      match noteText pg with
      | inl e => inl e
      | inr text =>
          if String.eqb text ERROR_TEXT then inl (Error ERROR_TEXT)
          else inr ()
      end
  end end end end end end.

(** The form is there and takes the credentials. *)
Definition formFilled (pg : LoginPage) : Prop :=
  loginField pg = inr (Present ()) ∧ typeUsername pg = Fulfils ∧
  passwordField pg = inr (Present ()) ∧ typePassword pg = Fulfils ∧
  submitButton pg = inr (Present ()).

(** The page of a refused login, and the same page when the navigation is
    not seen in time. *)
Definition refusedPage : LoginPage :=
  mkLoginPage (inr (Present ())) Fulfils (inr (Present ())) Fulfils
              (inr (Present ())) Fulfils (inr (Present ())) (inr ERROR_TEXT).

Definition refusedUnseen : LoginPage :=
  mkLoginPage (inr (Present ())) Fulfils (inr (Present ())) Fulfils
              (inr (Present ())) (Rejects (Error "TimeoutError"))
              (inr (Present ())) (inr ERROR_TEXT).

End Login.

(* ===================================================================== *)
(** * [PowerSchoolSave.login] *)
(* ===================================================================== *)
Module Session.
Import Js Scrape.

(** [fs.rm(p, { recursive: true })]: the directory goes with all that is
    below it; without [force] a missing path is an error. *)
Definition rm (p : Path) : M unit := λ w,
  if decide (p ∈ dirs w)
  then (Ok (), mkWorld (filter (λ q, ¬ p `prefix_of` q) (dirs w)) (stdout w), 1)
  else (Throw (Error "ENOENT"), w, 1).

(** What the browser answers during [login]. *)
Record Answers := mkAnswers {
  launch : Outcome;         (* await puppeteer.launch(..) *)
  newPage : Outcome;        (* await this.browser.newPage(), in the pool *)
  setViewport : Outcome;    (* await tab.setViewport(..), in the pool *)
  goto : Outcome;           (* await tab.goto(this.root) *)
  strategyLogin : Outcome;  (* await strategy.login(tab) *)
  closeTab : Outcome        (* await tab.close() *)
}.

(** The pool from [new Tabs(browser, maxTabs)] and the call [create()] of
    [login] up to the end of the first pass of the reconciliation task. *)
Definition firstPass (b : Answers) (mx : Z) : Pool.World :=
  let w := Pool.admitPending (Pool.create (Pool.newTabs mx)) in
  match Pool.loop w with
  | Pool.AwaitNewPage p =>
      match newPage b with
      | Rejects _ => Pool.crash w
      | Fulfils =>
          let w' := Pool.pageCreated p w in
          match setViewport b with
          | Rejects _ => Pool.crash w'
          | Fulfils =>
              Pool.pushAndResolve p (Pool.pages (Pool.browser w)) w'
          end
      end
  | _ => w
  end.

(** [login] has settled, or it is suspended at [await this.tabs.create()]
    after the first pass of the pool. *)
Inductive Settled :=
| Done (r : Res unit)
| Pending.

Definition loggedIn (this : PowerSchoolSave) : PowerSchoolSave :=
  mkPowerSchoolSave (root this) (out this) (headless this) (maxTabs this)
                    (Some 0).

(** What a call of [login(strategy)] leaves: whether and how it settled, the
    object, the directories, and the pool of [this.tabs] if one was built. *)
Record LoginRun := mkLoginRun {
  settled : Settled;
  object : PowerSchoolSave;
  disk : World;
  tabsPool : option Pool.World
}.

(** [login(strategy)] from [puppeteer.launch(..)] on, with the directories
    [w] that [fs.rm] and [fs.mkdir] have left. When [await tab.close()]
    fulfils the page is closed; the pool learns of it at its next pass. *)
Definition withBrowser (this : PowerSchoolSave) (b : Answers) (w : World)
  : LoginRun :=
  match launch b with
  | Rejects e => mkLoginRun (Done (Throw e)) this w None
  | Fulfils =>
      let this' := loggedIn this in
      let pool := firstPass b (maxTabs this) in
      match Pool.promises pool !! 0 with
      | Some (Pool.Fulfilled tab) =>
          match goto b with
          | Rejects e => mkLoginRun (Done (Throw e)) this' w (Some pool)
          | Fulfils =>
          match strategyLogin b with
          | Rejects e => mkLoginRun (Done (Throw e)) this' w (Some pool)
          | Fulfils =>
          match closeTab b with
          | Rejects e => mkLoginRun (Done (Throw e)) this' w (Some pool)
          | Fulfils =>
              mkLoginRun (Done (Ok ())) this' w
                         (Some (Pool.closePage tab pool))
          end end end
      | _ => mkLoginRun Pending this' w (Some pool)
      end
  end.

(** [login(strategy)], statement by statement. *)
Definition loginRun (this : PowerSchoolSave) (b : Answers) (w : World)
  : LoginRun :=
  match rm (out this) w with
  | (Throw e, w1, _) => mkLoginRun (Done (Throw e)) this w1 None
  | (Ok _, w1, _) =>
      match mkdir (out this) w1 with
      | (Throw e, w2, _) => mkLoginRun (Done (Throw e)) this w2 None
      | (Ok _, w2, _) => withBrowser this b w2
      end
  end.

(** The result of [login(strategy)], the object and the directories it
    leaves. *)
Definition login (this : PowerSchoolSave) (b : Answers) (w : World)
  : Settled * PowerSchoolSave * World :=
  (settled (loginRun this b w), object (loginRun this b w),
   disk (loginRun this b w)).

(** Every call of the browser fulfils but [strategy.login], which rejects
    with [e]. *)
Definition refuses (e : Thrown) : Answers :=
  mkAnswers Fulfils Fulfils Fulfils Fulfils (Rejects e) Fulfils.

Definition allFulfil : Answers :=
  mkAnswers Fulfils Fulfils Fulfils Fulfils Fulfils Fulfils.

End Session.

(* ===================================================================== *)
(** * Numbered file names ([pad] in [savePages] and in
      [saveActivitiesDiscussions]) *)
(* ===================================================================== *)
Module Names.
Import Sanitize.

(** The decimal digits of [n], least significant first; [fuel] bounds the
    number of digits. *)
Fixpoint digitsLE (fuel n : nat) : list nat :=
  match fuel with
  | O => []
  | S fuel' =>
      if n <? 10 then [n] else n mod 10 :: digitsLE fuel' (n / 10)
  end.

(** The digits of [n], most significant first; a number has fewer digits
    than [S n] (see [digitsLE_value]). *)
Definition digits (n : nat) : list nat := rev (digitsLE (S n) n).

(** The code unit of a digit. *)
Definition digitChar (d : nat) : CodeUnit := N.of_nat (48 + d).

(** [`${n}`] for an index or a length of an array. *)
Definition toString (n : nat) : JSString := digitChar <$> digits n.

(** [s.padStart(targetLength, '0')] *)
Definition padStart (s : JSString) (targetLength : nat) : JSString :=
  replicate (targetLength - length s) 48%N ++ s.

(** The value of a list of digits, least significant first. *)
Fixpoint valueLE (ds : list nat) : nat :=
  match ds with
  | [] => 0
  | d :: ds' => d + 10 * valueLE ds'
  end.

(** The digits of [pad i], most significant first. *)
Definition padDigits (w i : nat) : list nat :=
  replicate (w - length (digits i)) 0 ++ digits i.

(** The order of strings by code units ([a < b] in JavaScript, and the order
    of a sorted directory listing). *)
Fixpoint lexLt (a b : JSString) : Prop :=
  match a, b with
  | _, [] => False
  | [], _ :: _ => True
  | x :: a', y :: b' => (x < y)%N ∨ (x = y ∧ lexLt a' b')
  end.

Section Numbered.

Variable upperNonAscii : CodeUnit → option CodeUnit.

(** [pages.length], or [discussions.length]. *)
Variable size : nat.

(** [const padLength = `${pages.length}`.length] *)
Definition padLength : nat := length (toString size).

(** [function pad(number) { return `${number}`.padStart(padLength, '0') }] *)
Definition pad (number : nat) : JSString :=
  padStart (toString number) padLength.

(** The last segment of [pageOut] in [savePages]:
    [sanitizeFilename(`${pad(i)} ${page.title}`) + '.pdf'] *)
Definition pageFile (i : nat) (title : JSString) : JSString :=
  sanitizeFilename upperNonAscii (pad i ++ [32%N] ++ title)
  ++ [46; 112; 100; 102]%N.

(** The last segment of [discussionOut] in [saveActivitiesDiscussions]:
    [sanitizeFilename(`${pad(i + 1)} ${title}`)] *)
Definition discussionDir (i : nat) (title : JSString) : JSString :=
  sanitizeFilename upperNonAscii (pad (i + 1) ++ [32%N] ++ title).

End Numbered.

End Names.

(* ===================================================================== *)
(** * Facts about the pool *)
(* ===================================================================== *)
Module PoolFacts.
Import Pool.

(** ** The in-place scan *)

Lemma cullFrom_split b fuel (pre suf : list Page) :
  length suf ≤ fuel →
  cullFrom b fuel (length pre) (pre ++ suf) = pre ++ cullSkip b false suf.
Proof.
  revert pre suf. induction fuel as [|fuel IH]; intros pre suf Hlen.
  - destruct suf; simpl in *; [done | lia].
  - destruct suf as [|tab rest]; simpl.
    + rewrite lookup_ge_None_2 by (rewrite length_app; simpl; lia). done.
    + rewrite list_lookup_middle by done.
      destruct (isClosed b tab).
      * rewrite delete_middle.
        destruct rest as [|u rest']; simpl.
        { destruct fuel; simpl; [by rewrite app_nil_r|].
          rewrite lookup_ge_None_2 by (rewrite length_app; simpl; lia).
          by rewrite app_nil_r. }
        replace (S (length pre)) with (length (pre ++ [u]))
          by (rewrite length_app; simpl; lia).
        rewrite (cons_middle u pre rest'), app_assoc.
        rewrite IH by (simpl in *; lia).
        by rewrite <- app_assoc.
      * replace (S (length pre)) with (length (pre ++ [tab]))
          by (rewrite length_app; simpl; lia).
        rewrite (cons_middle tab pre rest), app_assoc.
        rewrite IH by (simpl in *; lia).
        by rewrite <- app_assoc.
Qed.

(** The scan written with a live index is the scan that skips the element
    following each removal. *)
Lemma cullDeadTabs_skip b (ts : list Page) :
  cullDeadTabs b ts = cullSkip b false ts.
Proof. exact (cullFrom_split b (length ts) [] ts (le_n _)). Qed.

(** [length ts] turns are enough: more fuel changes nothing. *)
Lemma cullFrom_fuel b fuel (ts : list Page) :
  length ts ≤ fuel → cullFrom b fuel 0 ts = cullDeadTabs b ts.
Proof.
  intros H. rewrite cullDeadTabs_skip. exact (cullFrom_split b fuel [] ts H).
Qed.

Lemma cullSkip_length b skip (ts : list Page) :
  length (cullSkip b skip ts) ≤ length ts.
Proof.
  revert skip. induction ts as [|tab rest IH]; intros skip; simpl; [done|].
  destruct skip; simpl.
  - specialize (IH false). lia.
  - destruct (isClosed b tab); simpl.
    + specialize (IH true). lia.
    + specialize (IH false). lia.
Qed.

Lemma cullDeadTabs_length b (ts : list Page) :
  length (cullDeadTabs b ts) ≤ length ts.
Proof. rewrite cullDeadTabs_skip. apply cullSkip_length. Qed.

(** Nothing is removed when no page of the array is closed. *)
Lemma cullSkip_all_open b (ts : list Page) :
  Forall (λ tab, isClosed b tab = false) ts → cullSkip b false ts = ts.
Proof.
  induction 1 as [|tab rest Htab _ IH]; simpl; [done|].
  by rewrite Htab, IH.
Qed.

(** A page that is open stays in the array. *)
Lemma cullSkip_keeps_open b skip (ts : list Page) tab :
  tab ∈ ts → isClosed b tab = false → tab ∈ cullSkip b skip ts.
Proof.
  intros Hin Hopen. revert skip.
  induction ts as [|u rest IH]; intros skip; [by apply elem_of_nil in Hin|].
  apply elem_of_cons in Hin as [->|Hin]; simpl.
  - destruct skip; [left|rewrite Hopen; left].
  - destruct skip; [right; auto|].
    destruct (isClosed b u); [auto | right; auto].
Qed.

(** Of two closed neighbours one always survives the scan: the one the
    iterator steps over. *)
Lemma cullSkip_adjacent b skip (l1 l2 : list Page) x y :
  isClosed b x = true → isClosed b y = true →
  ∃ tab, tab ∈ cullSkip b skip (l1 ++ x :: y :: l2) ∧ isClosed b tab = true.
Proof.
  intros Hx Hy. revert skip.
  induction l1 as [|u l1 IH]; intros skip; simpl.
  - destruct skip.
    + exists x. split; [left | done].
    + rewrite Hx. exists y. split; [left | done].
  - destruct skip.
    + destruct (IH false) as (tab & Hin & Hc). exists tab. split; [by right | done].
    + destruct (isClosed b u).
      * apply IH.
      * destruct (IH false) as (tab & Hin & Hc).
        exists tab. split; [by right | done].
Qed.

(** ** Runs *)

Lemma run_app es1 es2 w :
  run (es1 ++ es2) w = run es1 w ≫= run es2.
Proof.
  revert w. induction es1 as [|e es1 IH]; intros w; simpl; [done|].
  destruct (exec e w); simpl; [apply IH | done].
Qed.

(** A property kept by every step holds along every run. *)
Lemma run_invariant (P : World → Prop) :
  (∀ e w w', P w → exec e w = Some w' → P w') →
  ∀ es w w', P w → run es w = Some w' → P w'.
Proof.
  intros Hstep es. induction es as [|e es IH]; intros w w' HP Hrun; simpl in Hrun.
  - by simplify_eq.
  - destruct (exec e w) as [w1|] eqn:He; [|done]. eauto.
Qed.

Lemma exec_step e w w' : exec e w = Some w' ↔ step w e w'.
Proof.
  split.
  - unfold exec. intros H.
    destruct e; try (destruct (loop w) eqn:Hl; try discriminate H);
      try case_decide; try discriminate H;
      injection H as <-; econstructor; eauto.
  - intros H. destruct H; unfold exec;
      try match goal with Hl : loop _ = _ |- _ => rewrite Hl end;
      try rewrite decide_True by done;
      try done; by destruct (loop w).
Qed.

(** ** Capacity *)

Lemma admitPending_max w : max (pool (admitPending w)) = max (pool w).
Proof.
  unfold admitPending. destruct (_ <? _)%Z; [|done].
  by destruct (pending (pool w)).
Qed.

Lemma admitPending_tabs w : tabs (pool (admitPending w)) = tabs (pool w).
Proof.
  unfold admitPending. destruct (_ <? _)%Z; [|done].
  by destruct (pending (pool w)).
Qed.

Lemma admitPending_capacity w :
  (Z.of_nat (length (tabs (pool w))) ≤ max (pool w))%Z →
  capacityInv (admitPending w).
Proof.
  intros H. unfold capacityInv, admitPending.
  destruct (Z.ltb_spec (Z.of_nat (length (tabs (pool w)))) (max (pool w)));
    [destruct (pending (pool w))|]; simpl; lia.
Qed.

Lemma exec_max e w w' : exec e w = Some w' → max (pool w') = max (pool w).
Proof.
  intros H. apply exec_step in H. destruct H; simpl; try done.
  - apply admitPending_max.
  - unfold pushAndResolve. by rewrite admitPending_max.
Qed.

Lemma exec_capacity e w w' :
  capacityInv w → exec e w = Some w' → capacityInv w'.
Proof.
  intros HI H. apply exec_step in H. unfold capacityInv in HI.
  destruct H as [|tab Htab|Hl|Hl|p Hl|p Hl|p tab Hl|p tab Hl];
    try rewrite Hl in HI; unfold capacityInv; simpl.
  - done.
  - done.
  - pose proof (cullDeadTabs_length (browser w) (tabs (pool w))). lia.
  - by apply admitPending_capacity.
  - done.
  - lia.
  - apply admitPending_capacity; simpl. rewrite length_app; simpl. lia.
  - lia.
Qed.

(** ** Requests, pages and the counter *)

Lemma settledUpTo_length k m : length (settledUpTo k m) = k + m.
Proof.
  unfold settledUpTo.
  by rewrite length_app, length_fmap, length_seq, length_replicate.
Qed.

Lemma settledUpTo_snoc k m :
  settledUpTo k m ++ [Unsettled] = settledUpTo k (S m).
Proof.
  unfold settledUpTo. rewrite <- app_assoc. f_equal.
  symmetry. apply replicate_S_end.
Qed.

Lemma settledUpTo_lookup k m p st :
  settledUpTo k m !! p = Some st →
  (p < k ∧ st = Fulfilled p) ∨ (k ≤ p < k + m ∧ st = Unsettled).
Proof.
  unfold settledUpTo. intros H.
  apply lookup_app_Some in H as [H|[Hle H]].
  - apply list_lookup_fmap_Some in H as (i & -> & H).
    apply lookup_seq in H as [-> ?]. left. split; [lia|done].
  - rewrite length_fmap, length_seq in Hle, H.
    apply lookup_replicate in H as [-> ?]. right. split; [lia|done].
Qed.

Lemma settledUpTo_resolve k m :
  resolve k k (settledUpTo k (S m)) = settledUpTo (S k) m.
Proof.
  unfold resolve, settledUpTo.
  change (replicate (S m) Unsettled) with (Unsettled :: replicate m Unsettled).
  assert (Hk : length (Fulfilled <$> seq 0 k) = k)
    by by rewrite length_fmap, length_seq.
  rewrite list_lookup_middle by done.
  rewrite insert_app_r_alt by lia.
  rewrite Hk, Nat.sub_diag.
  rewrite seq_S, fmap_app, <- app_assoc. done.
Qed.

Lemma handedOut_snoc k : handedOut k ++ [(k, k)] = handedOut (S k).
Proof. unfold handedOut. by rewrite seq_S, fmap_app. Qed.

Lemma handedOut_lookup k j a t :
  handedOut k !! j = Some (a, t) → a = j ∧ t = j ∧ j < k.
Proof.
  unfold handedOut. intros H.
  apply list_lookup_fmap_Some in H as (i & Heq & H).
  apply lookup_seq in H as [-> ?]. simplify_eq. done.
Qed.

Lemma handedOut_lookup_lt k j : j < k → handedOut k !! j = Some (j, j).
Proof.
  intros H. unfold handedOut. rewrite list_lookup_fmap, lookup_seq_lt by done.
  done.
Qed.

Lemma newTabs_inv mx : Inv (newTabs mx) 0 0.
Proof. split; try done. apply (queued_cull 0 0). Qed.

(** The loop head keeps the bookkeeping, wherever it is entered from. *)
Lemma admitPending_inv w k m :
  count (pool w) = Z.of_nat k →
  resolved w = handedOut k →
  promises w = settledUpTo k m →
  pending (pool w) = seq k m →
  pages (browser w) = k →
  Inv (admitPending w) k m.
Proof.
  intros Hc Hr Hp Hq Hn. unfold admitPending.
  destruct (_ <? _)%Z.
  - rewrite Hq. destruct m as [|m]; simpl.
    + split; simpl; try done. rewrite Hq, Hn. apply queued_sleep.
    + split; simpl; try done. rewrite Hn. apply queued_newPage.
  - split; simpl; try done. rewrite Hq, Hn. apply queued_sleep.
Qed.

Lemma queued_create l k m ps n :
  queued l k m ps n → queued l k (S m) (ps ++ [k + m]) n.
Proof.
  intros H. destruct H as [k m|k m|k m|k m|k m ps n Hn].
  - rewrite <- (seq_S m k). constructor.
  - rewrite <- (seq_S m k). constructor.
  - replace (k + S m) with (S k + m) by lia.
    rewrite <- (seq_S m (S k)). constructor.
  - replace (k + S m) with (S k + m) by lia.
    rewrite <- (seq_S m (S k)). constructor.
  - by constructor.
Qed.

Lemma queued_reconciled l k m ps n :
  l = AfterCull ∨ l = Sleeping → queued l k m ps n → ps = seq k m ∧ n = k.
Proof. intros [->| ->]; by inversion 1. Qed.

Lemma queued_newPage_inv p k m ps n :
  queued (AwaitNewPage p) k m ps n →
  p = k ∧ n = k ∧ ∃ m', m = S m' ∧ ps = seq (S k) m'.
Proof. inversion 1; eauto. Qed.

Lemma queued_viewport_inv p tab k m ps n :
  queued (AwaitViewport p tab) k m ps n →
  p = k ∧ tab = k ∧ n = S k ∧ ∃ m', m = S m' ∧ ps = seq (S k) m'.
Proof. inversion 1; eauto 6. Qed.

Lemma exec_inv e w w' k m :
  Inv w k m → exec e w = Some w' → ∃ k' m', Inv w' k' m'.
Proof.
  intros [Hc Hr Hp Hq] H. apply exec_step in H.
  destruct H as [|tab Htab|Hl|Hl|p Hl|p Hl|p tab Hl|p tab Hl];
    try rewrite Hl in Hq.
  - (* create() *)
    exists k, (S m). split; simpl; try done.
    + by rewrite Hp, settledUpTo_snoc.
    + rewrite Hp, settledUpTo_length. by apply queued_create.
  - (* a page is closed *)
    exists k, m. by split.
  - (* the timer fires *)
    exists k, m. split; simpl; try done.
    apply queued_reconciled in Hq as [-> ->]; [constructor | by right].
  - (* the loop head after the cull *)
    exists k, m.
    apply queued_reconciled in Hq as [Hq Hn]; [|by left].
    by apply admitPending_inv.
  - (* newPage fulfils *)
    exists k, m.
    apply queued_newPage_inv in Hq as (-> & Hn & m' & -> & Hq).
    split; simpl; try done. rewrite Hn, Hq. constructor.
  - (* newPage rejects *)
    exists k, m.
    apply queued_newPage_inv in Hq as (-> & Hn & m' & -> & Hq).
    split; simpl; try done. constructor. lia.
  - (* setViewport fulfils *)
    apply queued_viewport_inv in Hq as (-> & -> & Hn & m' & -> & Hq).
    exists (S k), m'. unfold pushAndResolve.
    apply admitPending_inv; simpl.
    + rewrite Hc. lia.
    + by rewrite Hr, handedOut_snoc.
    + by rewrite Hp, settledUpTo_resolve.
    + done.
    + done.
  - (* setViewport rejects *)
    exists k, m.
    apply queued_viewport_inv in Hq as (-> & -> & Hn & m' & -> & Hq).
    split; simpl; try done. constructor. lia.
Qed.

Lemma run_inv es w w' k m :
  Inv w k m → run es w = Some w' → ∃ k' m', Inv w' k' m'.
Proof.
  intros HI Hrun.
  apply (run_invariant (λ w, ∃ k m, Inv w k m)) with es w; [|eauto|done].
  intros e w1 w2 (k1 & m1 & H1) He. eapply exec_inv; eauto.
Qed.

Lemma reachable_inv mx es w :
  run es (newTabs mx) = Some w → ∃ k m, Inv w k m.
Proof. apply run_inv with 0 0, newTabs_inv. Qed.

(** ** Capacity, order, counter *)

Lemma capacity_bound (mx : Z) (es : list Event) (w : World) :
  (0 ≤ mx)%Z → run es (newTabs mx) = Some w →
  max (pool w) = mx ∧ capacityInv w.
Proof.
  intros Hmx Hrun.
  cut (capacityInv w ∧ max (pool w) = mx); [tauto|].
  apply (run_invariant (λ w, capacityInv w ∧ max (pool w) = mx))
    with es (newTabs mx); [|by split; simpl|done].
  intros e w1 w2 [H1 H2] He. split.
  - by apply exec_capacity with e w1.
  - by rewrite (exec_max e w1 w2).
Qed.

(** C1 (capacity invariant). Whatever [create()] calls, page closures and
    steps of the reconciliation task have happened since the pool was built
    with a capacity [mx ≥ 0], [this.max] is still [mx] and [this.tabs] holds
    at most [mx] handles. This holds in every state, hence at every
    reconciliation point. (The data model takes the capacity to be a positive
    integer; the constructor itself does not check its argument.) *)
Theorem capacity_invariant (mx : Z) (es : list Event) (w : World) :
  (0 ≤ mx)%Z →
  run es (newTabs mx) = Some w →
  max (pool w) = mx ∧
  (Z.of_nat (length (tabs (pool w))) ≤ max (pool w))%Z.
Proof.
  intros Hmx Hrun.
  cut (capacityInv w ∧ max (pool w) = mx).
  { unfold capacityInv. intros [H <-]. split; [done|].
    revert H. destruct (loop w); lia. }
  apply (run_invariant (λ w, capacityInv w ∧ max (pool w) = mx))
    with es (newTabs mx); [|by split; simpl|done].
  intros e w1 w2 [H1 H2] He. split.
  - by apply exec_capacity with e w1.
  - by rewrite (exec_max e w1 w2).
Qed.

Lemma capacity_invariant_witness :
  max (pool afterSecondPass) = 2%Z ∧
  (Z.of_nat (length (tabs (pool afterSecondPass))) ≤ max (pool afterSecondPass))%Z.
Proof.
  apply (capacity_invariant 2 (threeRequests ++ closeFirst) afterSecondPass).
  - lia.
  - vm_compute. reflexivity.
Defined.

(** The bound on the capacity is needed: built with a negative capacity the
    pool holds more handles than its capacity from the start. *)
Remark capacity_negative :
  (max (pool (newTabs (-1))) < Z.of_nat (length (tabs (pool (newTabs (-1))))))%Z.
Proof. reflexivity. Qed.

(** C2 (first come, first served). Requests are numbered in the order of
    the [create()] calls, and [resolved] lists the calls [pending(tab)] in the
    order they were made. If call [a] came strictly before call [b], then at
    any time: if the promise of [b] is fulfilled so is the promise of [a],
    and wherever [b] stands in the list, [a] stands before it. *)
Theorem fifo_order (mx : Z) (es : list Event) (w : World)
    (a b : Resolver) (tb : Page) :
  run es (newTabs mx) = Some w →
  a < b →
  (promises w !! b = Some (Fulfilled tb) →
   ∃ ta, promises w !! a = Some (Fulfilled ta)) ∧
  (∀ j, resolved w !! j = Some (b, tb) →
   ∃ i ta, i < j ∧ resolved w !! i = Some (a, ta)).
Proof.
  intros Hrun Hab.
  destruct (reachable_inv mx es w Hrun) as (k & m & [Hc Hr Hp Hq]).
  split.
  - rewrite Hp. intros H.
    apply settledUpTo_lookup in H as [[Hb _]|[_ ?]]; [|done].
    exists a. unfold settledUpTo.
    rewrite lookup_app_l by (rewrite length_fmap, length_seq; lia).
    rewrite list_lookup_fmap, lookup_seq_lt by lia. done.
  - rewrite Hr. intros j H.
    apply handedOut_lookup in H as (-> & -> & Hj).
    exists a, a. split; [done|]. apply handedOut_lookup_lt. lia.
Qed.

Lemma fifo_order_witness :
  (promises afterFirstPass !! 1 = Some (Fulfilled 1) →
   ∃ ta, promises afterFirstPass !! 0 = Some (Fulfilled ta)) ∧
  (∀ j, resolved afterFirstPass !! j = Some (1, 1) →
   ∃ i ta, i < j ∧ resolved afterFirstPass !! i = Some (0, ta)).
Proof.
  apply (fifo_order 2 threeRequests afterFirstPass 0 1 1).
  - vm_compute. reflexivity.
  - lia.
Defined.

(** C3 (the cull misses a closed neighbour). Two requests are served, both
    pages are closed, and one pass later [this.tabs] still holds the second
    page, which is closed: the iterator stepped over it after the first
    removal. *)
Theorem cull_misses_adjacent :
  ∃ w, run closeBoth (newTabs 2) = Some w ∧
       tabs (pool w) = [1] ∧ isClosed (browser w) 1 = true ∧
       cullDeadTabs (mkBrowser 2 {[0; 1]}) [0; 1] = [1].
Proof.
  eexists. split; [vm_compute; reflexivity|].
  split; [reflexivity|]. split; vm_compute; reflexivity.
Qed.

(** X1 (the live scan). The scan of [cullDeadTabs], written with the live
    index of the array iterator, is the scan that steps over the element following each
    removal; turns beyond the length of the array change nothing. *)
Theorem cullDeadTabs_live_scan (b : Browser) (ts : list Page) (extra : nat) :
  cullDeadTabs b ts = cullSkip b false ts ∧
  cullFrom b (length ts + extra) 0 ts = cullDeadTabs b ts.
Proof.
  split; [apply cullDeadTabs_skip | apply cullFrom_fuel; lia].
Qed.

(** X2 (a closed neighbour survives). Whatever the array, if two neighbours
    in it are closed, a closed page is left after the scan. *)
Theorem cullDeadTabs_adjacent_survivor (b : Browser) (l1 l2 : list Page)
    (x y : Page) :
  isClosed b x = true → isClosed b y = true →
  ∃ tab, tab ∈ cullDeadTabs b (l1 ++ x :: y :: l2) ∧ isClosed b tab = true.
Proof.
  intros Hx Hy. rewrite cullDeadTabs_skip. by apply cullSkip_adjacent.
Qed.

Lemma cullDeadTabs_adjacent_survivor_witness :
  ∃ tab, tab ∈ cullDeadTabs (mkBrowser 3 {[1; 2]}) ([0] ++ 1 :: 2 :: [])
         ∧ isClosed (mkBrowser 3 {[1; 2]}) tab = true.
Proof.
  apply (cullDeadTabs_adjacent_survivor (mkBrowser 3 {[1; 2]}) [0] [] 1 2);
    vm_compute; reflexivity.
Defined.

(** X3 (open pages stay). The scan removes closed pages only, and never
    lengthens the array. *)
Theorem cullDeadTabs_keeps_open (b : Browser) (ts : list Page) (tab : Page) :
  tab ∈ ts → isClosed b tab = false →
  tab ∈ cullDeadTabs b ts ∧ length (cullDeadTabs b ts) ≤ length ts.
Proof.
  intros Hin Hopen. split; [|apply cullDeadTabs_length].
  rewrite cullDeadTabs_skip. by apply cullSkip_keeps_open.
Qed.

Lemma cullDeadTabs_keeps_open_witness :
  2 ∈ cullDeadTabs (mkBrowser 3 {[0; 1]}) [0; 1; 2] ∧
  length (cullDeadTabs (mkBrowser 3 {[0; 1]}) [0; 1; 2]) ≤ length [0; 1; 2].
Proof.
  apply (cullDeadTabs_keeps_open (mkBrowser 3 {[0; 1]}) [0; 1; 2] 2).
  - vm_compute. repeat constructor.
  - vm_compute. reflexivity.
Defined.

Lemma admitPending_count w : count (pool (admitPending w)) = count (pool w).
Proof.
  unfold admitPending. destruct (_ <? _)%Z; [|done].
  by destruct (pending (pool w)).
Qed.

Lemma exec_count e w w' :
  exec e w = Some w' →
  count (pool w') = (count (pool w) + (if completesTab e then 1 else 0))%Z.
Proof.
  intros H. apply exec_step in H. destruct H; simpl; try lia.
  - rewrite admitPending_count. lia.
  - unfold pushAndResolve. by rewrite admitPending_count.
Qed.

Lemma run_count_mono es w w' :
  run es w = Some w' → (count (pool w) ≤ count (pool w'))%Z.
Proof.
  revert w. induction es as [|e es IH]; intros w Hrun; simpl in Hrun.
  - simplify_eq. lia.
  - destruct (exec e w) as [w1|] eqn:He; [|done].
    apply exec_count in He. apply IH in Hrun.
    destruct (completesTab e); lia.
Qed.

(** C4 (the lifetime counter). In every state the pool can reach:
    [count] never decreases afterwards; a step changes it only when it ends
    the creation of a page, and then by exactly one, so a [create()] call
    leaves it as it is; between two admissions it is the number of pages
    [newPage] has produced for the pool, whatever has been closed since; and
    it is the number of handles given to requesters, which are all
    different. *)
Theorem count_exact (mx : Z) (es : list Event) (w : World) :
  run es (newTabs mx) = Some w →
  (∀ es' w', run es' w = Some w' → (count (pool w) ≤ count (pool w'))%Z) ∧
  (∀ e w', exec e w = Some w' →
     count (pool w') = (count (pool w) + (if completesTab e then 1 else 0))%Z) ∧
  (reconciled w → count (pool w) = Z.of_nat (pages (browser w))) ∧
  count (pool w) = Z.of_nat (length (resolved w)) ∧
  NoDup (snd <$> resolved w).
Proof.
  intros Hrun.
  destruct (reachable_inv mx es w Hrun) as (k & m & [Hc Hr Hp Hq]).
  split; [intros es' w'; apply run_count_mono|].
  split; [intros e w'; apply exec_count|].
  split; [|split].
  - intros Hrec. apply queued_reconciled in Hq as [_ ->]; done.
  - rewrite Hr, Hc. unfold handedOut. by rewrite length_fmap, length_seq.
  - rewrite Hr. unfold handedOut. rewrite <- list_fmap_compose.
    rewrite (list_fmap_ext _ id (seq 0 k) ) by done.
    rewrite list_fmap_id. apply NoDup_seq.
Qed.

Lemma count_exact_witness :
  (∀ es' w', run es' afterSecondPass = Some w' →
     (count (pool afterSecondPass) ≤ count (pool w'))%Z) ∧
  (∀ e w', exec e afterSecondPass = Some w' →
     count (pool w') =
     (count (pool afterSecondPass) + (if completesTab e then 1 else 0))%Z) ∧
  (reconciled afterSecondPass →
   count (pool afterSecondPass) = Z.of_nat (pages (browser afterSecondPass))) ∧
  count (pool afterSecondPass) = Z.of_nat (length (resolved afterSecondPass)) ∧
  NoDup (snd <$> resolved afterSecondPass).
Proof.
  apply (count_exact 2 (threeRequests ++ closeFirst) afterSecondPass).
  vm_compute. reflexivity.
Defined.

(** C5 (capacity 2, three requests). The three calls are made; the first
    pass fulfils the promises of R1 and R2 and leaves R3 queued; a pass
    without a closure changes nothing; once the page of R1 is closed, the next
    pass fulfils the promise of R3, the page of R2 is still in the pool and
    open, and the counter is 3. *)
Theorem scenario_capacity_two :
  run threeRequests (newTabs 2) = Some afterFirstPass ∧
  promises afterFirstPass = [Fulfilled 0; Fulfilled 1; Unsettled] ∧
  pending (pool afterFirstPass) = [2] ∧
  run idlePass afterFirstPass = Some afterFirstPass ∧
  run closeFirst afterFirstPass = Some afterSecondPass ∧
  promises afterSecondPass = [Fulfilled 0; Fulfilled 1; Fulfilled 2] ∧
  tabs (pool afterSecondPass) = [1; 2] ∧
  isClosed (browser afterSecondPass) 1 = false ∧
  count (pool afterSecondPass) = 3%Z.
Proof. repeat split; vm_compute; reflexivity. Qed.

(** ** Requests that stay pending *)

Lemma create_keeps w p st :
  promises w !! p = Some st → promises (create w) !! p = Some st.
Proof. intros H. simpl. by apply lookup_app_l_Some. Qed.

Lemma admitPending_promises w : promises (admitPending w) = promises w.
Proof.
  unfold admitPending. destruct (_ <? _)%Z; [|done].
  by destruct (pending (pool w)).
Qed.

(** Only the end of a page creation settles a promise. *)
Lemma exec_keeps e w w' p st :
  completesTab e = false → exec e w = Some w' →
  promises w !! p = Some st → promises w' !! p = Some st.
Proof.
  intros He H Hp. apply exec_step in H.
  destruct H; simpl in *; try done.
  - by apply lookup_app_l_Some.
  - by rewrite admitPending_promises.
Qed.

Lemma run_keeps es w w' p st :
  Forall (λ e, completesTab e = false) es → run es w = Some w' →
  promises w !! p = Some st → promises w' !! p = Some st.
Proof.
  intros Hes. revert w. induction Hes as [|e es He _ IH]; intros w Hrun Hp;
    simpl in Hrun.
  - by simplify_eq.
  - destruct (exec e w) as [w1|] eqn:Hx; [|done].
    apply IH with w1; [done|]. by apply exec_keeps with e w.
Qed.

Lemma crashed_stays e w w' p st :
  loop w = Crashed → exec e w = Some w' →
  loop w' = Crashed ∧
  (promises w !! p = Some st → promises w' !! p = Some st).
Proof.
  intros Hl H. apply exec_step in H.
  destruct H; simpl; try congruence; split; try done.
  apply lookup_app_l_Some.
Qed.

Lemma crashed_forever es w w' p st :
  loop w = Crashed → run es w = Some w' →
  promises w !! p = Some st → promises w' !! p = Some st.
Proof.
  revert w. induction es as [|e es IH]; intros w Hl Hrun Hp; simpl in Hrun.
  - by simplify_eq.
  - destruct (exec e w) as [w1|] eqn:Hx; [|done].
    destruct (crashed_stays e w w1 p st Hl Hx) as [Hl1 Hp1]. eauto.
Qed.

Lemma saturated_stays e w w' p st :
  saturated w → isClose e = false → exec e w = Some w' →
  saturated w' ∧ (promises w !! p = Some st → promises w' !! p = Some st).
Proof.
  intros (Hrec & Hfull & Hopen) He H. apply exec_step in H.
  destruct H as [|tab Htab|Hl|Hl|q Hl|q Hl|q tab Hl|q tab Hl];
    try (destruct Hrec; congruence); try done.
  - split; [done|]. apply lookup_app_l_Some.
  - assert (Hcull : cullDeadTabs (browser w) (tabs (pool w)) = tabs (pool w))
      by (rewrite cullDeadTabs_skip; by apply cullSkip_all_open).
    split; [|done]. unfold saturated, startPass; simpl. rewrite Hcull.
    split; [by left | done].
  - assert (Hstay : admitPending w =
        mkWorld (pool w) (browser w) Sleeping (promises w) (resolved w)).
    { unfold admitPending.
      destruct (Z.ltb_spec (Z.of_nat (length (tabs (pool w)))) (max (pool w)));
        [lia | done]. }
    rewrite Hstay. split; [|done]. split; [by right | done].
Qed.

Lemma saturated_forever es w w' p st :
  saturated w → Forall (λ e, isClose e = false) es → run es w = Some w' →
  promises w !! p = Some st → promises w' !! p = Some st.
Proof.
  intros Hs Hes. revert w Hs.
  induction Hes as [|e es He _ IH]; intros w Hs Hrun Hp; simpl in Hrun.
  - by simplify_eq.
  - destruct (exec e w) as [w1|] eqn:Hx; [|done].
    destruct (saturated_stays e w w1 p st Hs He Hx) as [Hs1 Hp1]. eauto.
Qed.

(** In the pool of capacity 2 the third request waits through any number of
    passes as long as no page is closed. *)
Lemma third_request_waits (n : nat) (w' : World) :
  run (concat (replicate n idlePass)) afterFirstPass = Some w' →
  promises w' !! 2 = Some Unsettled.
Proof.
  intros Hrun.
  apply saturated_forever with (concat (replicate n idlePass)) afterFirstPass;
    [| |done|done].
  - split; [by right|]. split; [simpl; lia|].
    repeat constructor; vm_compute; reflexivity.
  - clear Hrun. induction n as [|n IH]; [constructor|].
    change (concat (replicate (S n) idlePass))
      with (Timer :: Resume :: concat (replicate n idlePass)).
    by repeat (constructor; [done|]).
Qed.

(** C6 ([create()] has no error path). In every state the pool can reach:
    a call of [create()] is always possible and returns an unsettled promise;
    no promise it has returned is rejected; a promise is settled by nothing
    but the end of a page creation (there is no timeout and no cancellation);
    so it stays unsettled for ever once the reconciliation task has died on a
    rejected browser call, and for as long as the pool is full of open pages
    and none is closed. *)
Theorem create_no_error_path (mx : Z) (es : list Event) (w : World) :
  run es (newTabs mx) = Some w →
  exec Create w = Some (create w) ∧
  promises (create w) !! length (promises w) = Some Unsettled ∧
  (∀ p, promises w !! p ≠ Some Rejected) ∧
  (∀ es' w' p,
     run es' w = Some w' → promises w !! p = Some Unsettled →
     Forall (λ e, completesTab e = false) es' ∨
     loop w = Crashed ∨
     (saturated w ∧ Forall (λ e, isClose e = false) es') →
     promises w' !! p = Some Unsettled).
Proof.
  intros Hrun.
  destruct (reachable_inv mx es w Hrun) as (k & m & [Hc Hr Hp Hq]).
  split; [done|]. split; [|split].
  - simpl. by rewrite (list_lookup_middle _ []).
  - intros p H. rewrite Hp in H.
    by apply settledUpTo_lookup in H as [[_ ?]|[_ ?]].
  - intros es' w' p Hrun' Hun [Hes|[Hl|[Hs Hes]]].
    + by apply run_keeps with es' w.
    + by apply crashed_forever with es' w.
    + by apply saturated_forever with es' w.
Qed.

Lemma create_no_error_path_witness :
  exec Create afterFirstPass = Some (create afterFirstPass) ∧
  promises (create afterFirstPass) !! length (promises afterFirstPass)
    = Some Unsettled ∧
  (∀ p, promises afterFirstPass !! p ≠ Some Rejected) ∧
  (∀ es' w' p,
     run es' afterFirstPass = Some w' →
     promises afterFirstPass !! p = Some Unsettled →
     Forall (λ e, completesTab e = false) es' ∨
     loop afterFirstPass = Crashed ∨
     (saturated afterFirstPass ∧ Forall (λ e, isClose e = false) es') →
     promises w' !! p = Some Unsettled).
Proof.
  apply (create_no_error_path 2 threeRequests afterFirstPass).
  vm_compute. reflexivity.
Defined.

(** ** What the pool holds *)

Lemma cullSkip_sublist b skip (ts : list Page) :
  cullSkip b skip ts `sublist_of` ts.
Proof.
  revert skip. induction ts as [|tab rest IH]; intros skip; simpl; [done|].
  destruct skip; [by apply sublist_skip|].
  destruct (isClosed b tab); [by apply sublist_cons | by apply sublist_skip].
Qed.

Lemma admitPending_resolved w : resolved (admitPending w) = resolved w.
Proof.
  unfold admitPending. destruct (_ <? _)%Z; [|done].
  by destruct (pending (pool w)).
Qed.

Lemma admitPending_browser w : browser (admitPending w) = browser w.
Proof.
  unfold admitPending. destruct (_ <? _)%Z; [|done].
  by destruct (pending (pool w)).
Qed.

Lemma admitPending_owns w : ownsInv w → ownsInv (admitPending w).
Proof.
  unfold ownsInv.
  by rewrite admitPending_resolved, admitPending_tabs, admitPending_browser,
    admitPending_max.
Qed.

Lemma queued_pages l k m ps n : queued l k m ps n → k ≤ n ≤ S k.
Proof. destruct 1; lia. Qed.

Lemma isClosed_closePage b tab i :
  isClosed (mkBrowser (pages b) ({[tab]} ∪ closed b)) i = false →
  isClosed b i = false.
Proof.
  unfold isClosed; simpl. rewrite !bool_decide_eq_false. set_solver.
Qed.

Lemma handedOut_length k : length (handedOut k) = k.
Proof. unfold handedOut. by rewrite length_fmap, length_seq. Qed.

Lemma exec_owns e w w' k m :
  Inv w k m → capacityInv w → ownsInv w → exec e w = Some w' → ownsInv w'.
Proof.
  intros [Hc Hr Hp Hq] Hcap (Hnd & Hlt & Hopen & Hroom) H.
  apply exec_step in H. unfold capacityInv in Hcap.
  rewrite Hr, handedOut_length in Hlt, Hopen, Hroom.
  destruct H as [|tab Htab|Hl|Hl|p Hl|p Hl|p tab Hl|p tab Hl];
    try rewrite Hl in Hq; try rewrite Hl in Hcap.
  - (* create() *)
    unfold ownsInv; simpl. by rewrite Hr, handedOut_length.
  - (* a page is closed *)
    unfold ownsInv; simpl. rewrite Hr, handedOut_length.
    repeat split; try done.
    intros i Hi Hcl. apply Hopen; [done|]. by apply isClosed_closePage in Hcl.
  - (* the timer fires *)
    unfold ownsInv; simpl. rewrite Hr, handedOut_length, cullDeadTabs_skip.
    pose proof (cullSkip_sublist (browser w) false (tabs (pool w))) as Hsub.
    repeat split.
    + by apply (sublist_NoDup _ _ Hnd Hsub).
    + intros t Ht. apply Hlt. by apply (elem_of_sublist _ _ _ Ht Hsub).
    + intros i Hi Hcl. apply cullSkip_keeps_open; auto.
    + apply sublist_length in Hsub. lia.
  - (* the loop head after the cull *)
    apply admitPending_owns. unfold ownsInv.
    by rewrite Hr, handedOut_length.
  - (* newPage fulfils *)
    apply queued_newPage_inv in Hq as (-> & Hn & m' & -> & Hq).
    unfold ownsInv; simpl. rewrite Hr, handedOut_length.
    repeat split; try done. rewrite Hn in *. lia.
  - (* newPage rejects *)
    unfold ownsInv; simpl. by rewrite Hr, handedOut_length.
  - (* setViewport fulfils *)
    apply queued_viewport_inv in Hq as (-> & -> & Hn & m' & -> & Hq).
    unfold pushAndResolve. apply admitPending_owns.
    unfold ownsInv; simpl.
    rewrite Hr, length_app, handedOut_length; simpl.
    replace (k + 1) with (S k) by lia.
    repeat split.
    + apply NoDup_app. split; [done|]. split; [|apply NoDup_singleton].
      intros x Hx Hx'. apply list_elem_of_singleton in Hx' as ->.
      apply Hlt in Hx. lia.
    + intros t Ht. apply elem_of_app in Ht as [Ht|Ht].
      * apply Hlt in Ht. lia.
      * apply list_elem_of_singleton in Ht as ->. lia.
    + intros i Hi Hcl. apply elem_of_app.
      destruct (decide (i = k)) as [->|Hne].
      * right. by apply list_elem_of_singleton.
      * left. apply Hopen; [lia | done].
    + rewrite Hn in Hroom. rewrite Hn. rewrite length_app; simpl. lia.
  - (* setViewport rejects *)
    unfold ownsInv; simpl. by rewrite Hr, handedOut_length.
Qed.

Lemma reachable_owns mx es w :
  (0 ≤ mx)%Z → run es (newTabs mx) = Some w →
  (∃ k m, Inv w k m) ∧ capacityInv w ∧ ownsInv w.
Proof.
  intros Hmx.
  apply (run_invariant (λ w, (∃ k m, Inv w k m) ∧ capacityInv w ∧ ownsInv w)).
  - intros e w1 w2 ((k & m & HI) & Hcap & Hown) He.
    split; [by eapply exec_inv|]. split; [by eapply exec_capacity|].
    by eapply exec_owns.
  - split; [exists 0, 0; apply newTabs_inv|]. split; [done|].
    unfold ownsInv; simpl. repeat split; try done.
    + constructor.
    + intros t Ht. by apply elem_of_nil in Ht.
    + lia.
Qed.

(** X4 (open pages are bounded). Built with a capacity [mx ≥ 0], the pool
    never has more than [mx] of the pages it created open at once, the page
    under creation included; [this.tabs] never holds a handle twice, and
    holds only handles that were given to a requester. *)
Theorem open_pages_bounded (mx : Z) (es : list Event) (w : World) :
  (0 ≤ mx)%Z →
  run es (newTabs mx) = Some w →
  NoDup (tabs (pool w)) ∧
  (∀ t, t ∈ tabs (pool w) → ∃ p, (p, t) ∈ resolved w) ∧
  (Z.of_nat (length (openPages w)) ≤ mx)%Z.
Proof.
  intros Hmx Hrun.
  destruct (capacity_bound mx es w Hmx Hrun) as [Hmax _].
  destruct (reachable_owns mx es w Hmx Hrun)
    as ((k & m & [Hc Hr Hp Hq]) & Hcap & (Hnd & Hlt & Hopen & Hroom)).
  rewrite Hr, handedOut_length in Hlt, Hopen, Hroom.
  split; [done|]. split.
  - intros t Ht. exists t. rewrite Hr.
    apply list_elem_of_lookup. exists t. apply handedOut_lookup_lt. auto.
  - apply queued_pages in Hq. unfold openPages.
    replace (pages (browser w)) with (k + (pages (browser w) - k)) by lia.
    rewrite seq_app, filter_app, length_app.
    pose proof (length_filter (λ t, isClosed (browser w) t = false)
                  (seq (0 + k) (pages (browser w) - k))) as H2.
    rewrite length_seq in H2.
    assert (length (filter (λ t, isClosed (browser w) t = false) (seq 0 k))
            ≤ length (tabs (pool w))) as H1.
    { apply submseteq_length, NoDup_submseteq.
      - apply NoDup_filter, NoDup_seq.
      - intros i Hi. apply list_elem_of_filter in Hi as [Hcl Hi].
        apply elem_of_seq in Hi. apply Hopen; [lia | done]. }
    lia.
Qed.

Lemma open_pages_bounded_witness :
  NoDup (tabs (pool afterSecondPass)) ∧
  (∀ t, t ∈ tabs (pool afterSecondPass) → ∃ p, (p, t) ∈ resolved afterSecondPass) ∧
  (Z.of_nat (length (openPages afterSecondPass)) ≤ 2)%Z.
Proof.
  apply (open_pages_bounded 2 (threeRequests ++ closeFirst) afterSecondPass).
  - lia.
  - vm_compute. reflexivity.
Defined.

(** ** Passes over an array with closed pages *)

Lemma closedCount_cons b t (ts : list Page) :
  closedCount b (t :: ts) =
  (if isClosed b t then 1 else 0) + closedCount b ts.
Proof.
  unfold closedCount. rewrite filter_cons.
  destruct (isClosed b t); by case_decide.
Qed.

(** A removal shields at most the next page, so one scan leaves at most half
    of the closed pages. *)
Lemma cullSkip_halves b skip (ts : list Page) :
  2 * closedCount b (cullSkip b skip ts)
  ≤ closedCount b ts + (if skip then 1 else 0).
Proof.
  revert skip. induction ts as [|t ts IH]; intros skip; simpl.
  - destruct skip; unfold closedCount; simpl; lia.
  - destruct skip.
    + rewrite !closedCount_cons. specialize (IH false). simpl in IH.
      destruct (isClosed b t); lia.
    + destruct (isClosed b t) eqn:Ht.
      * rewrite closedCount_cons, Ht. specialize (IH true). simpl in IH. lia.
      * rewrite !closedCount_cons, Ht. specialize (IH false). simpl in IH. lia.
Qed.

(** The scan keeps the open pages, in their order. *)
Lemma cullSkip_open b skip (ts : list Page) :
  filter (λ t, isClosed b t = false) (cullSkip b skip ts)
  = filter (λ t, isClosed b t = false) ts.
Proof.
  revert skip. induction ts as [|t ts IH]; intros skip; simpl; [done|].
  destruct skip.
  - rewrite !filter_cons. by rewrite IH.
  - destruct (isClosed b t) eqn:Ht.
    + rewrite filter_cons_False by congruence. apply IH.
    + rewrite !filter_cons. by rewrite IH.
Qed.

Lemma closedCount_zero b (ts : list Page) :
  closedCount b ts = 0 → filter (λ t, isClosed b t = false) ts = ts.
Proof.
  induction ts as [|t ts IH]; [done|].
  rewrite closedCount_cons. destruct (isClosed b t) eqn:Ht; [lia|].
  intros H. rewrite filter_cons_True by done. by rewrite IH.
Qed.

Lemma passes_closed b n (ts : list Page) :
  2 ^ n * closedCount b (passes b n ts) ≤ closedCount b ts.
Proof.
  induction n as [|n IH]; [simpl; lia|].
  change (passes b (S n) ts) with (cullDeadTabs b (passes b n ts)).
  rewrite cullDeadTabs_skip.
  pose proof (cullSkip_halves b false (passes b n ts)) as H.
  rewrite Nat.add_0_r in H.
  apply (Nat.mul_le_mono_l _ _ (2 ^ n)) in H.
  rewrite Nat.pow_succ_r'. lia.
Qed.

Lemma passes_open b n (ts : list Page) :
  filter (λ t, isClosed b t = false) (passes b n ts)
  = filter (λ t, isClosed b t = false) ts.
Proof.
  induction n as [|n IH]; [done|].
  change (passes b (S n) ts) with (cullDeadTabs b (passes b n ts)).
  by rewrite cullDeadTabs_skip, cullSkip_open.
Qed.

(** X5 (closed pages leave within a few passes). With no further closure,
    each pass of [cullDeadTabs] at least halves the number of closed pages in
    the array, open pages are never touched, and once [2 ^ n] exceeds the
    number of closed pages, [n] passes leave exactly the open pages, in their
    order. *)
Theorem passes_halve (b : Browser) (n : nat) (ts : list Page) :
  2 ^ n * closedCount b (passes b n ts) ≤ closedCount b ts ∧
  filter (λ t, isClosed b t = false) (passes b n ts)
    = filter (λ t, isClosed b t = false) ts ∧
  (closedCount b ts < 2 ^ n →
   passes b n ts = filter (λ t, isClosed b t = false) ts).
Proof.
  split; [apply passes_closed|]. split; [apply passes_open|].
  intros Hlt. rewrite <- (passes_open b n ts). symmetry.
  apply closedCount_zero.
  pose proof (passes_closed b n ts).
  destruct (closedCount b (passes b n ts)); [done|]. nia.
Qed.

(** ** A pool without capacity *)

Lemma exec_idle e w w' :
  (max (pool w) ≤ 0)%Z → idleInv w → exec e w = Some w' → idleInv w'.
Proof.
  intros Hmx (Ht & Hrec & Hr & Hn & Hp & Hq) H. apply exec_step in H.
  destruct H as [|tab Htab|Hl|Hl|p Hl|p Hl|p tab Hl|p tab Hl];
    try (destruct Hrec; congruence).
  - repeat split; simpl; try done.
    + apply Forall_app. split; [done | by constructor].
    + by rewrite Hq, length_app, seq_app.
  - lia.
  - repeat split; simpl; try done.
    + by rewrite Ht.
    + by left.
  - assert (admitPending w =
        mkWorld (pool w) (browser w) Sleeping (promises w) (resolved w)) as ->.
    { unfold admitPending. rewrite Ht.
      destruct (Z.ltb_spec (Z.of_nat (length (@nil Page))) (max (pool w)));
        [simpl in *; lia | done]. }
    repeat split; simpl; try done. by right.
Qed.

Lemma no_capacity_idle (mx : Z) (es : list Event) (w : World) :
  (mx ≤ 0)%Z → run es (newTabs mx) = Some w → idleInv w.
Proof.
  intros Hmx Hrun.
  cut (idleInv w ∧ max (pool w) = mx); [tauto|].
  apply (run_invariant (λ w, idleInv w ∧ max (pool w) = mx))
    with es (newTabs mx); [| |done].
  - intros e w1 w2 [H1 H2] He. split.
    + apply exec_idle with e w1; [lia|done|done].
    + by rewrite (exec_max e w1 w2).
  - split; [|done]. repeat split; simpl; try done. by left.
Qed.

(** X6 (no capacity, no page). A pool built with a capacity of 0 or less
    never creates a page and never settles a promise: every request stays in
    the queue, in call order. *)
Theorem no_capacity_never_serves (mx : Z) (es : list Event) (w : World) :
  (mx ≤ 0)%Z →
  run es (newTabs mx) = Some w →
  pages (browser w) = 0 ∧ resolved w = [] ∧
  Forall (λ st, st = Unsettled) (promises w) ∧
  pending (pool w) = seq 0 (length (promises w)).
Proof.
  intros Hmx Hrun.
  cut (idleInv w ∧ max (pool w) = mx).
  { intros [(Ht & Hrec & Hr & Hn & Hp & Hq) _]. done. }
  apply (run_invariant (λ w, idleInv w ∧ max (pool w) = mx))
    with es (newTabs mx); [| |done].
  - intros e w1 w2 [H1 H2] He. split.
    + apply exec_idle with e w1; [lia|done|done].
    + by rewrite (exec_max e w1 w2).
  - split; [|done]. repeat split; simpl; try done. by left.
Qed.

Lemma no_capacity_never_serves_witness :
  pages (browser (mkWorld (mkTabs [] [0] 0 0) (mkBrowser 0 ∅) Sleeping
                          [Unsettled] [])) = 0 ∧
  resolved (mkWorld (mkTabs [] [0] 0 0) (mkBrowser 0 ∅) Sleeping
                    [Unsettled] []) = [] ∧
  Forall (λ st, st = Unsettled)
         (promises (mkWorld (mkTabs [] [0] 0 0) (mkBrowser 0 ∅) Sleeping
                            [Unsettled] [])) ∧
  pending (pool (mkWorld (mkTabs [] [0] 0 0) (mkBrowser 0 ∅) Sleeping
                         [Unsettled] []))
  = seq 0 (length (promises (mkWorld (mkTabs [] [0] 0 0) (mkBrowser 0 ∅)
                                     Sleeping [Unsettled] []))).
Proof.
  apply (no_capacity_never_serves 0 [Create; Resume; Timer; Resume]).
  - lia.
  - vm_compute. reflexivity.
Defined.

(** ** Where the requests are *)

Lemma settledUpTo_unsettled k m p :
  settledUpTo k m !! p = Some Unsettled ↔ k ≤ p < k + m.
Proof.
  split.
  - intros H. apply settledUpTo_lookup in H as [[_ ?]|[? _]]; [done|lia].
  - intros H. unfold settledUpTo.
    rewrite lookup_app_r by (rewrite length_fmap, length_seq; lia).
    rewrite length_fmap, length_seq. apply lookup_replicate_2. lia.
Qed.

(** X7 (no request is mislaid). As long as the reconciliation task has not
    died, the promises still unsettled are exactly those of the requests in
    the queue and of the request a page is being created for. *)
Theorem requests_accounted (mx : Z) (es : list Event) (w : World)
    (p : Resolver) :
  run es (newTabs mx) = Some w →
  loop w ≠ Crashed →
  (promises w !! p = Some Unsettled ↔
   p ∈ pending (pool w) ∨ loop w = AwaitNewPage p ∨
   ∃ tab, loop w = AwaitViewport p tab).
Proof.
  intros Hrun Hlive.
  destruct (reachable_inv mx es w Hrun) as (k & m & [Hc Hr Hp Hq]).
  rewrite Hp, settledUpTo_unsettled.
  destruct Hq as [k m|k m|k m|k m|k m ps n Hn]; [| | | |done].
  - rewrite elem_of_seq. split; [intros ?; by left|].
    intros [?|[?|[? ?]]]; done.
  - rewrite elem_of_seq. split; [intros ?; by left|].
    intros [?|[?|[? ?]]]; done.
  - rewrite elem_of_seq. split.
    + intros ?. destruct (decide (p = k)) as [->|?]; [right; by left|].
      left. lia.
    + intros [?|[?|[? ?]]]; [lia| |done]. simplify_eq. lia.
  - rewrite elem_of_seq. split.
    + intros ?. destruct (decide (p = k)) as [->|?]; [right; right; eauto|].
      left. lia.
    + intros [?|[?|[? ?]]]; [lia|done|]. simplify_eq. lia.
Qed.

Lemma requests_accounted_witness :
  promises afterFirstPass !! 2 = Some Unsettled ↔
  2 ∈ pending (pool afterFirstPass) ∨ loop afterFirstPass = AwaitNewPage 2 ∨
  ∃ tab, loop afterFirstPass = AwaitViewport 2 tab.
Proof.
  apply (requests_accounted 2 threeRequests afterFirstPass 2).
  - vm_compute. reflexivity.
  - discriminate.
Defined.

(** ** A closure frees a place *)

Lemma cullSkip_all_open_any b skip (ts : list Page) :
  Forall (λ tab, isClosed b tab = false) ts → cullSkip b skip ts = ts.
Proof.
  intros H. revert skip.
  induction H as [|tab rest Htab _ IH]; intros skip; simpl; [done|].
  destruct skip; [by rewrite IH|]. by rewrite Htab, IH.
Qed.

(** With a single closed page in the array the scan removes just it. *)
Lemma cullSkip_single b t (ts : list Page) :
  NoDup ts →
  (∀ x, x ∈ ts → isClosed b x = true ↔ x = t) →
  cullSkip b false ts = filter (λ x, x ≠ t) ts.
Proof.
  induction 1 as [|x rest Hx Hnd IH]; intros Hcl; simpl; [done|].
  destruct (decide (x = t)) as [->|Hne].
  - rewrite (proj2 (Hcl t (list_elem_of_here _ _)) eq_refl).
    rewrite filter_cons_False by (intros ?; done).
    assert (Hrest : Forall (λ tab, isClosed b tab = false) rest).
    { apply Forall_forall. intros y Hy.
      destruct (isClosed b y) eqn:Hcy; [|done].
      apply (Hcl y (list_elem_of_further _ _ _ Hy)) in Hcy. by subst. }
    rewrite cullSkip_all_open_any by done.
    symmetry. clear -Hx. induction rest as [|y rest IH]; [done|].
    apply not_elem_of_cons in Hx as [? ?].
    rewrite filter_cons_True by done. by rewrite IH.
  - destruct (isClosed b x) eqn:Hcx.
    { apply (Hcl x (list_elem_of_here _ _)) in Hcx. done. }
    rewrite filter_cons_True by done. f_equal. apply IH.
    intros y Hy. apply Hcl. by right.
Qed.

Lemma length_filter_remove (t : Page) (ts : list Page) :
  NoDup ts → t ∈ ts → S (length (filter (λ x, x ≠ t) ts)) = length ts.
Proof.
  induction 1 as [|x rest Hx Hnd IH]; intros Hin.
  - by apply elem_of_nil in Hin.
  - destruct (decide (x = t)) as [->|Hne].
    + rewrite filter_cons_False by (intros ?; done). simpl. f_equal.
      f_equal. clear -Hx. induction rest as [|y rest IH]; [done|].
      apply not_elem_of_cons in Hx as [? ?].
      rewrite filter_cons_True by done. by rewrite IH.
    + rewrite filter_cons_True by done. simpl. f_equal. apply IH.
      apply elem_of_cons in Hin as [?|?]; [congruence | done].
Qed.

Lemma admitPending_serves w p rest :
  (Z.of_nat (length (tabs (pool w))) < max (pool w))%Z →
  pending (pool w) = p :: rest →
  admitPending w =
  mkWorld (setPending rest (pool w)) (browser w) (AwaitNewPage p)
          (promises w) (resolved w).
Proof.
  intros Hlt Hq. unfold admitPending. rewrite Hq.
  destruct (Z.ltb_spec (Z.of_nat (length (tabs (pool w)))) (max (pool w)));
    [done | lia].
Qed.

Lemma admitPending_full w :
  (max (pool w) ≤ Z.of_nat (length (tabs (pool w))))%Z →
  admitPending w =
  mkWorld (pool w) (browser w) Sleeping (promises w) (resolved w).
Proof.
  intros Hge. unfold admitPending.
  destruct (Z.ltb_spec (Z.of_nat (length (tabs (pool w)))) (max (pool w)));
    [lia | done].
Qed.

(** X8 (a closed page makes room for one request). The pool sleeps with all
    its [max] pages open and requests waiting. When one of the pages is closed,
    the next pass removes just that page, creates one page, fulfils with it the
    promise of the request at the head of the queue and of no other, and goes
    back to sleep, full again. *)
Theorem closing_admits_next (mx : Z) (es : list Event) (w : World)
    (t : Page) (p : Resolver) (rest : list Resolver) :
  (0 ≤ mx)%Z →
  run es (newTabs mx) = Some w →
  loop w = Sleeping →
  Z.of_nat (length (tabs (pool w))) = max (pool w) →
  Forall (λ tab, isClosed (browser w) tab = false) (tabs (pool w)) →
  pending (pool w) = p :: rest →
  t ∈ tabs (pool w) →
  ∃ w', run (closeAndServe t) w = Some w' ∧
        promises w !! p = Some Unsettled ∧
        promises w' !! p = Some (Fulfilled (pages (browser w))) ∧
        (∀ q, q ≠ p → promises w' !! q = promises w !! q) ∧
        tabs (pool w') =
          filter (λ x, x ≠ t) (tabs (pool w)) ++ [pages (browser w)] ∧
        pending (pool w') = rest ∧
        loop w' = Sleeping.
Proof.
  intros Hmx Hrun Hl Hfull Hopen Hq Ht.
  destruct (reachable_owns mx es w Hmx Hrun)
    as ((k & m & [Hc Hr Hp Hqd]) & Hcap & (Hnd & Hlt & _ & _)).
  rewrite Hr, handedOut_length in Hlt.
  rewrite Hl in Hqd. apply queued_reconciled in Hqd as [Hqs Hn]; [|by right].
  rewrite Hq in Hqs. destruct m as [|m]; [done|].
  injection Hqs as Hhead Htail. subst p rest.
  assert (Hun : promises w !! k = Some Unsettled)
    by (rewrite Hp; apply settledUpTo_unsettled; lia).
  assert (Hcull : cullDeadTabs
                    (mkBrowser (pages (browser w)) ({[t]} ∪ closed (browser w)))
                    (tabs (pool w))
                  = filter (λ x, x ≠ t) (tabs (pool w))).
  { rewrite cullDeadTabs_skip. apply cullSkip_single; [done|].
    intros x Hx. rewrite Forall_forall in Hopen. specialize (Hopen x Hx).
    unfold isClosed in *; simpl.
    rewrite bool_decide_eq_false in Hopen.
    rewrite bool_decide_eq_true, elem_of_union, elem_of_singleton. tauto. }
  pose proof (length_filter_remove t (tabs (pool w)) Hnd Ht) as Hlen.
  set (w1 := closePage t w).
  set (w2 := startPass w1).
  set (w3 := mkWorld (setPending (seq (S k) m) (pool w2)) (browser w2)
                     (AwaitNewPage k) (promises w2) (resolved w2)).
  set (w4 := pageCreated k w3).
  assert (E1 : exec (Close t) w = Some w1).
  { apply exec_step. constructor. apply Hlt in Ht. lia. }
  assert (E2 : exec Timer w1 = Some w2) by (apply exec_step; by constructor).
  assert (E3 : exec Resume w2 = Some w3).
  { unfold w3. rewrite <- (admitPending_serves w2 k (seq (S k) m)).
    - apply exec_step. by constructor.
    - unfold w2, w1; simpl. rewrite Hcull. lia.
    - done. }
  assert (E4 : exec NewPageDone w3 = Some w4)
    by (apply exec_step; by constructor).
  assert (E5 : exec ViewportDone w4
               = Some (pushAndResolve k (pages (browser w)) w4))
    by (apply exec_step; by constructor).
  exists (pushAndResolve k (pages (browser w)) w4). split.
  { unfold closeAndServe. cbn [run]. by rewrite E1, E2, E3, E4, E5. }
  unfold pushAndResolve. rewrite admitPending_full.
  2:{ unfold w4, w3, w2, w1; simpl. rewrite Hcull, length_app. simpl. lia. }
  unfold w4, w3, w2, w1; simpl. rewrite Hcull.
  split; [done|]. unfold resolve. rewrite Hun, Hn.
  split; [|split; [|done]].
  - apply list_lookup_insert_eq. apply lookup_lt_Some in Hun. done.
  - intros q Hne. by apply list_lookup_insert_ne.
Qed.

Lemma closing_admits_next_witness :
  ∃ w', run (closeAndServe 0) afterFirstPass = Some w' ∧
        promises afterFirstPass !! 2 = Some Unsettled ∧
        promises w' !! 2 = Some (Fulfilled (pages (browser afterFirstPass))) ∧
        (∀ q, q ≠ 2 → promises w' !! q = promises afterFirstPass !! q) ∧
        tabs (pool w') =
          filter (λ x, x ≠ 0) (tabs (pool afterFirstPass))
          ++ [pages (browser afterFirstPass)] ∧
        pending (pool w') = [] ∧
        loop w' = Sleeping.
Proof.
  apply (closing_admits_next 2 threeRequests afterFirstPass 0 2 []).
  - lia.
  - vm_compute. reflexivity.
  - reflexivity.
  - reflexivity.
  - repeat constructor; vm_compute; reflexivity.
  - reflexivity.
  - vm_compute. left.
Defined.

End PoolFacts.

(* ===================================================================== *)
(** * Facts about [sanitizeFilename] *)
(* ===================================================================== *)
Module SanitizeFacts.
Import Sanitize.

Section Regex.

Variable upperNonAscii : CodeUnit → option CodeUnit.

Abbreviation Canonicalize := (Canonicalize upperNonAscii).
Abbreviation matchesNegatedClass := (matchesNegatedClass upperNonAscii).
Abbreviation sanitizeFilename := (sanitizeFilename upperNonAscii).

Lemma Canonicalize_ascii (ch : CodeUnit) :
  (ch < 128)%N →
  Canonicalize ch =
  if ((97 <=? ch) && (ch <=? 122))%N then (ch - 32)%N else ch.
Proof.
  intros H. unfold Sanitize.Canonicalize, toUpperCase.
  destruct (N.ltb_spec ch 128); [|lia].
  destruct (N.leb_spec 128 ch); [lia|]. done.
Qed.

(** Without flag [u] a code unit outside ASCII never canonicalizes into
    ASCII. *)
Lemma Canonicalize_nonascii (ch : CodeUnit) :
  (128 ≤ ch)%N → (128 ≤ Canonicalize ch)%N.
Proof.
  intros H. unfold Sanitize.Canonicalize, toUpperCase.
  destruct (N.ltb_spec ch 128); [lia|].
  destruct (upperNonAscii ch) as [cu|]; [|done].
  destruct (N.leb_spec 128 ch); [|lia]. simpl.
  destruct (N.ltb_spec cu 128); lia.
Qed.

Lemma classMembers_ascii : Forall (λ a, (a < 128)%N) classMembers.
Proof. vm_compute. repeat constructor. Qed.

Lemma matches_nonascii (ch : CodeUnit) :
  (128 ≤ ch)%N → matchesNegatedClass ch = true.
Proof.
  intros H. unfold Sanitize.matchesNegatedClass.
  apply Canonicalize_nonascii in H.
  induction classMembers_ascii as [|a l Ha _ IH]; [done|]. simpl.
  apply negb_true_iff, orb_false_iff. split.
  - apply N.eqb_neq. rewrite (Canonicalize_ascii a Ha).
    destruct (_ && _); lia.
  - by apply negb_true_iff.
Qed.

(** On ASCII the matcher is decided by running it on each code unit. *)
Lemma matches_ascii_table :
  forallb (λ n, Bool.eqb (matchesNegatedClass (N.of_nat n))
                         (negb (inClass (N.of_nat n))))
          (seq 0 128) = true.
Proof. vm_compute. reflexivity. Qed.

Lemma matches_ascii (ch : CodeUnit) :
  (ch < 128)%N → matchesNegatedClass ch = negb (inClass ch).
Proof.
  intros H. pose proof matches_ascii_table as Htab.
  rewrite forallb_forall in Htab.
  specialize (Htab (N.to_nat ch)). rewrite N2Nat.id in Htab.
  apply Bool.eqb_prop, Htab, in_seq. lia.
Qed.

(** The pattern matches every code unit the class does not name. *)
Lemma matches_spec (ch : CodeUnit) :
  matchesNegatedClass ch = negb (inClass ch).
Proof.
  destruct (N.lt_ge_cases ch 128) as [H|H]; [by apply matches_ascii|].
  rewrite matches_nonascii by done.
  unfold inClass.
  repeat match goal with
  | |- context [(?a <=? ?b)%N] => destruct (N.leb_spec a b); try lia
  | |- context [(?a =? ?b)%N] => destruct (N.eqb_spec a b); try lia
  end; done.
Qed.

Lemma inClass_allowed (ch : CodeUnit) : inClass ch = true → allowed ch = true.
Proof. unfold inClass, allowed. intros ->. done. Qed.

(** C10. [sanitizeFilename] applied twice gives what it gives once, and its
    result holds nothing but ASCII letters, digits, parentheses, square
    brackets, hyphens, commas, spaces and underscores; this for any string of
    UTF-16 code units and any case table outside ASCII. *)
Theorem sanitizeFilename_idempotent (text : JSString) :
  sanitizeFilename (sanitizeFilename text) = sanitizeFilename text ∧
  Forall (λ ch, allowed ch = true) (sanitizeFilename text).
Proof.
  unfold Sanitize.sanitizeFilename. split.
  - rewrite <- list_fmap_compose. apply list_fmap_ext. intros i ch _. simpl.
    destruct (matchesNegatedClass ch) eqn:Hm.
    + by rewrite (matches_ascii 95).
    + by rewrite Hm.
  - apply Forall_fmap, Forall_true. intros ch. simpl.
    destruct (matchesNegatedClass ch) eqn:Hm; [done|].
    apply inClass_allowed. rewrite matches_spec in Hm.
    by apply negb_false_iff.
Qed.

Lemma allowed_inClass (ch : CodeUnit) :
  allowed ch = inClass ch || (ch =? 95)%N.
Proof. reflexivity. Qed.

Lemma fmap_fixed {A} (f : A → A) (l : list A) :
  f <$> l = l ↔ Forall (λ x, f x = x) l.
Proof.
  induction l as [|x l IH]; simpl.
  - split; [constructor | done].
  - split.
    + intros H. injection H as Hx Hl. constructor; [done | by apply IH].
    + intros H. apply Forall_cons in H as [Hx Hl].
      rewrite Hx. f_equal. by apply IH.
Qed.

(** X9 (what [sanitizeFilename] does to a name). Every code unit stays
    where it is: one that the class names is kept, any other becomes an
    underscore. So the length is kept, the function distributes over
    concatenation, and it leaves a name unchanged exactly when the name
    holds allowed code units only. *)
Theorem sanitizeFilename_pointwise (a b : JSString) :
  (∀ i ch, a !! i = Some ch →
     sanitizeFilename a !! i = Some (if inClass ch then ch else 95%N)) ∧
  length (sanitizeFilename a) = length a ∧
  sanitizeFilename (a ++ b) = sanitizeFilename a ++ sanitizeFilename b ∧
  (sanitizeFilename a = a ↔ Forall (λ ch, allowed ch = true) a).
Proof.
  unfold Sanitize.sanitizeFilename.
  split; [|split; [|split]].
  - intros i ch H. rewrite list_lookup_fmap, H. simpl.
    rewrite matches_spec. by destruct (inClass ch).
  - apply length_fmap.
  - apply fmap_app.
  - rewrite fmap_fixed. apply Forall_iff. intros ch.
    rewrite matches_spec, allowed_inClass.
    destruct (inClass ch); simpl; [done|].
    destruct (N.eqb_spec ch 95); split; congruence.
Qed.

End Regex.

End SanitizeFacts.

(* ===================================================================== *)
(** * Facts about the per-page loop of [savePages] *)
(* ===================================================================== *)
Module RetryFacts.
Import Js Retry.

(** A turn whose wait fails is followed by the rest of the loop. *)
Lemma pageLoop_timesOut headless a rest :
  timesOut a →
  pageLoop headless true (a :: rest) =
  (retryTrace a ++ fst (pageLoop headless true rest),
   snd (pageLoop headless true rest)).
Proof.
  intros (Hg & Hx & Hs & [e Hw] & Hc).
  cbn [pageLoop negb]. rewrite Hg, Hx, Hs, Hw, Hc. reflexivity.
Qed.

Lemma pageLoop_succeeds headless a rest :
  succeeds headless a →
  pageLoop headless true (a :: rest) = (successTrace headless a, Returned).
Proof.
  intros (Hg & Hx & Hs & Hw & Hp & Hc).
  cbn [pageLoop negb]. rewrite Hg, Hx, Hs, Hw, Hc.
  destruct headless; [rewrite Hp by done|]; reflexivity.
Qed.

Lemma pageLoop_retries headless fails rest :
  Forall timesOut fails →
  pageLoop headless true (fails ++ rest) =
  ((fails ≫= retryTrace) ++ fst (pageLoop headless true rest),
   snd (pageLoop headless true rest)).
Proof.
  induction 1 as [|a fails Ha _ IH].
  - simpl. by destruct (pageLoop headless true rest).
  - rewrite <- app_comm_cons, pageLoop_timesOut by done.
    rewrite IH. reflexivity.
Qed.

(** The loop returns only from a turn in which every call fulfilled, and
    every turn before it failed in the wait alone. *)
Lemma pageLoop_returned headless attempts tr :
  pageLoop headless true attempts = (tr, Returned) →
  ∃ fails a rest,
    attempts = fails ++ a :: rest ∧ Forall timesOut fails ∧
    succeeds headless a.
Proof.
  revert tr. induction attempts as [|a attempts IH]; intros tr H.
  - discriminate H.
  - cbn [pageLoop negb] in H. unfold await in H.
    destruct (goto a) eqn:Hg; [|discriminate H].
    destruct (expandComments a) eqn:Hx; [|discriminate H].
    destruct (scroll a) eqn:Hs; [|discriminate H].
    destruct (waitStub a) eqn:Hw.
    + exists [], a, attempts. split; [done|]. split; [constructor|].
      destruct (close a) eqn:Hc.
      * repeat split; try done. intros ->.
        destruct (pdf a); [done | discriminate H].
      * destruct headless; [destruct (pdf a)|]; discriminate H.
    + destruct (close a) eqn:Hc; [|discriminate H].
      cbn [fst snd] in H.
      destruct (pageLoop headless true attempts) as [tr' r] eqn:Hrest.
      cbn [fst snd] in H. assert (r = Returned) as -> by congruence.
      destruct (IH tr' eq_refl) as (fails & b & rest & -> & Hf & Hb).
      exists (a :: fails), b, rest. split; [done|]. split; [|done].
      constructor; [|done]. repeat split; eauto.
Qed.

(** C7 (retry after a failed wait). With the pool set: a turn of the loop
    in which the wait for the stub fails catches the error, closes its tab
    and is followed by a whole new turn on a newly acquired tab, however many
    such turns there have been; the loop returns from the first turn in which
    every call fulfils, and from no other. The PDF step is [tab.pdf] when
    [this.headless] is set and nothing otherwise. *)
Theorem savePages_retries (headless : bool) :
  (∀ fails rest, Forall timesOut fails →
     pageLoop headless true (fails ++ rest) =
     ((fails ≫= retryTrace) ++ fst (pageLoop headless true rest),
      snd (pageLoop headless true rest))) ∧
  (∀ fails a rest, Forall timesOut fails → succeeds headless a →
     pageLoop headless true (fails ++ a :: rest) =
     ((fails ≫= retryTrace) ++ successTrace headless a, Returned)) ∧
  (∀ fails, Forall timesOut fails →
     pageLoop headless true fails = (fails ≫= retryTrace, Waiting)) ∧
  (∀ attempts tr, pageLoop headless true attempts = (tr, Returned) →
     ∃ fails a rest,
       attempts = fails ++ a :: rest ∧ Forall timesOut fails ∧
       succeeds headless a).
Proof.
  split; [apply pageLoop_retries|]. split; [|split].
  - intros fails a rest Hf Ha.
    by rewrite pageLoop_retries, pageLoop_succeeds.
  - intros fails Hf.
    rewrite <- (app_nil_r fails) at 1. rewrite pageLoop_retries by done.
    simpl. by rewrite app_nil_r.
  - apply pageLoop_returned.
Qed.

(** ** Tabs that are not given back *)

Lemma endsWithClose_app (a b : list Action) :
  b ≠ [] → endsWithClose (a ++ b) = endsWithClose b.
Proof.
  intros Hb. unfold endsWithClose.
  destruct b as [|x b]; [done|]. by rewrite last_app_cons.
Qed.

Lemma balanced_retry a tr r :
  balanced tr r → balanced (retryTrace a ++ tr) r.
Proof.
  assert (Hacq : acquired (retryTrace a ++ tr) = S (acquired tr))
    by (unfold acquired; by rewrite List.filter_app, length_app).
  assert (Hrel : released (retryTrace a ++ tr) = S (released tr))
    by (unfold released; by rewrite List.filter_app, length_app).
  unfold balanced. destruct r as [|e|].
  - lia.
  - intros [Hne H]. split; [by destruct tr|].
    rewrite (endsWithClose_app _ tr Hne).
    destruct (endsWithClose tr); lia.
  - lia.
Qed.

(** X11 (a tab is given back unless a call other than the wait rejects).
    With the pool set, whatever the browser answers: when the loop returns,
    and whenever it waits for a tab, it has closed every tab it acquired; when
    it ends on a rejected call, every earlier tab was closed, and the last
    one is left open unless the rejected call is [tab.close()] itself. *)
Theorem tabs_given_back (headless : bool) (attempts : list Attempt) :
  balanced (fst (pageLoop headless true attempts))
           (snd (pageLoop headless true attempts)).
Proof.
  induction attempts as [|a attempts IH]; [reflexivity|].
  cbn [pageLoop negb]. unfold await.
  destruct (goto a); [|by split].
  destruct (expandComments a); [|by split].
  destruct (scroll a); [|by split].
  destruct (waitStub a).
  - destruct headless.
    + destruct (pdf a); [|by split].
      destruct (close a); [reflexivity | by split].
    + destruct (close a); [reflexivity | by split].
  - destruct (close a); [|by split].
    cbn [fst snd]. apply (balanced_retry a). exact IH.
Qed.

(** Two failed waits, then a page that renders: three tabs are acquired and
    closed, one PDF is written. *)
Lemma savePages_retries_witness :
  pageLoop true true ([timedOut 0; timedOut 1] ++ rendered 2 :: []) =
  (([timedOut 0; timedOut 1] ≫= retryTrace) ++ successTrace true (rendered 2),
   Returned).
Proof.
  apply (proj1 (proj2 (savePages_retries true))
               [timedOut 0; timedOut 1] (rendered 2) []).
  - repeat constructor; by eexists.
  - by repeat split.
Defined.

End RetryFacts.

(* ===================================================================== *)
(** * Facts about the login guards *)
(* ===================================================================== *)
Module ScrapeFacts.
Import Js Scrape.

(** Calls that all throw before their first [await]: [Promise.all] rejects
    at once, with the error of the first call, and nothing is changed. *)
Lemma promiseAll_thrown (e : Thrown) (ms : list (M unit)) w :
  ms ≠ [] →
  Forall (λ m, ∀ w', m w' = (Throw e, w', 0)) ms →
  promiseAll ms w = (Throw e, w, 0).
Proof.
  intros Hne Hms. unfold promiseAll.
  assert (Hall : settleAll ms w = ((λ _, (Throw e, 0)) <$> ms, w)).
  { clear Hne. induction Hms as [|m ms Hm _ IH]; simpl; [done|].
    by rewrite Hm, IH. }
  rewrite Hall.
  assert (Hfirst : firstRejection ((λ _ : M unit, (@Throw unit e, 0)) <$> ms)
                   = Some (e, 0)).
  { destruct ms as [|m ms]; [done|]. clear.
    revert m. induction ms as [|m' ms IH]; intros m; [done|].
    specialize (IH m'). simpl in *. by rewrite IH. }
  by rewrite Hfirst.
Qed.

Section Guards.

Context (B : Browse) (this : PowerSchoolSave).
Hypothesis unset : tabs this = None.

Lemma guard_unset w : guard this w = (Throw NotLoggedInError, w, 0).
Proof. unfold guard. by rewrite unset. Qed.

(** An operation that starts with the guard fails there, before any
    effect. *)
Lemma guarded_unset {A} (k : TabsRef → M A) w :
  (guard this ≫= k) w = (Throw NotLoggedInError, w, 0).
Proof. unfold mbind, M_bind. by rewrite guard_unset. Qed.

(** An operation that creates its directory and then hands over to guarded
    operations fails with their error only if the directory could be
    created. *)
Lemma mkdir_then_guarded (p : Path) (ms : list (M unit)) w :
  ms ≠ [] →
  Forall (λ m, ∀ w', m w' = (Throw NotLoggedInError, w', 0)) ms →
  (mkdir p;; promiseAll ms) w =
  match mkdir p w with
  | (Ok _, w', t) => (Throw NotLoggedInError, w', t)
  | (Throw e, w', t) => (Throw e, w', t)
  end.
Proof.
  intros Hne Hms. unfold mbind, M_bind.
  destruct (mkdir p w) as [[[[]|e] w'] t]; [|done].
  rewrite (promiseAll_thrown NotLoggedInError ms w' Hne Hms).
  by rewrite Nat.add_0_r.
Qed.

End Guards.

(** X17 (the guards before login). While [this.tabs] is unset, every
    operation that reads the pool itself throws [NotLoggedInError] before its
    first [await] and before any other effect: [saveClasses], [saveClass],
    [savePages], [saveGrades], [saveMessagesInbox], [saveMessagesDrafts],
    [saveActivitiesAssignments], [saveActivitiesAssignmentWork],
    [saveActivitiesDiscussions]. [saveMessages] and [saveActivities] call
    [fs.mkdir] first: they reject with [NotLoggedInError], thrown by their
    sub-operations, when it fulfils, and with its error when it rejects. *)
Theorem guards_before_login (B : Browse) (this : PowerSchoolSave) (w : World) :
  tabs this = None →
  saveClasses B this w = (Throw NotLoggedInError, w, 0) ∧
  (∀ c, saveClass B this c w = (Throw NotLoggedInError, w, 0)) ∧
  (∀ o r, savePages B this o r w = (Throw NotLoggedInError, w, 0)) ∧
  (∀ o r, saveGrades B this o r w = (Throw NotLoggedInError, w, 0)) ∧
  (∀ o r, saveMessagesInbox B this o r w = (Throw NotLoggedInError, w, 0)) ∧
  (∀ o r, saveMessagesDrafts B this o r w = (Throw NotLoggedInError, w, 0)) ∧
  (∀ o r pg,
     saveActivitiesAssignments B this o r pg w
     = (Throw NotLoggedInError, w, 0)) ∧
  (∀ o t h,
     saveActivitiesAssignmentWork B this o t h w
     = (Throw NotLoggedInError, w, 0)) ∧
  (∀ o r,
     saveActivitiesDiscussions B this o r w = (Throw NotLoggedInError, w, 0)) ∧
  (∀ o r,
     saveMessages B this o r w =
     match mkdir (join o "Messages") w with
     | (Ok _, w', t) => (Throw NotLoggedInError, w', t)
     | (Throw e, w', t) => (Throw e, w', t)
     end) ∧
  (∀ o r,
     saveActivities B this o r w =
     match mkdir (join o "Activities") w with
     | (Ok _, w', t) => (Throw NotLoggedInError, w', t)
     | (Throw e, w', t) => (Throw e, w', t)
     end).
Proof.
  intros unset.
  repeat match goal with |- _ ∧ _ => split end; intros;
    try (by apply guarded_unset).
  - apply mkdir_then_guarded; [done|].
    repeat constructor; intros w'; by apply guarded_unset.
  - apply mkdir_then_guarded; [done|].
    repeat constructor; intros w'; by apply guarded_unset.
Qed.

Lemma guards_before_login_witness :
  saveClasses idleBrowse beforeLogin outputDisk
    = (Throw NotLoggedInError, outputDisk, 0) ∧
  (∀ c, saveClass idleBrowse beforeLogin c outputDisk
        = (Throw NotLoggedInError, outputDisk, 0)) ∧
  (∀ o r, savePages idleBrowse beforeLogin o r outputDisk
          = (Throw NotLoggedInError, outputDisk, 0)) ∧
  (∀ o r, saveGrades idleBrowse beforeLogin o r outputDisk
          = (Throw NotLoggedInError, outputDisk, 0)) ∧
  (∀ o r, saveMessagesInbox idleBrowse beforeLogin o r outputDisk
          = (Throw NotLoggedInError, outputDisk, 0)) ∧
  (∀ o r, saveMessagesDrafts idleBrowse beforeLogin o r outputDisk
          = (Throw NotLoggedInError, outputDisk, 0)) ∧
  (∀ o r pg, saveActivitiesAssignments idleBrowse beforeLogin o r pg outputDisk
             = (Throw NotLoggedInError, outputDisk, 0)) ∧
  (∀ o t h, saveActivitiesAssignmentWork idleBrowse beforeLogin o t h outputDisk
            = (Throw NotLoggedInError, outputDisk, 0)) ∧
  (∀ o r, saveActivitiesDiscussions idleBrowse beforeLogin o r outputDisk
          = (Throw NotLoggedInError, outputDisk, 0)) ∧
  (∀ o r,
     saveMessages idleBrowse beforeLogin o r outputDisk =
     match mkdir (join o "Messages") outputDisk with
     | (Ok _, w', t) => (Throw NotLoggedInError, w', t)
     | (Throw e, w', t) => (Throw e, w', t)
     end) ∧
  (∀ o r,
     saveActivities idleBrowse beforeLogin o r outputDisk =
     match mkdir (join o "Activities") outputDisk with
     | (Ok _, w', t) => (Throw NotLoggedInError, w', t)
     | (Throw e, w', t) => (Throw e, w', t)
     end).
Proof.
  apply (guards_before_login idleBrowse beforeLogin outputDisk).
  reflexivity.
Defined.

(** C8 (two operations miss the guard). Before login, on a disk without the
    class directory, [savePages] and [saveGrades] throw [NotLoggedInError]
    at once, while their siblings [saveMessages] and [saveActivities], which
    do not start with the guard, reject with the error of [fs.mkdir]; and
    where the directory can be made, [saveMessages] makes it before it
    rejects. *)
Theorem saveMessages_before_login_fs_error :
  tabs beforeLogin = None ∧
  savePages idleBrowse beforeLogin ["output"; "Algebra (1)"] "root" emptyDisk
    = (Throw NotLoggedInError, emptyDisk, 0) ∧
  saveGrades idleBrowse beforeLogin ["output"; "Algebra (1)"] "root" emptyDisk
    = (Throw NotLoggedInError, emptyDisk, 0) ∧
  saveMessages idleBrowse beforeLogin ["output"; "Algebra (1)"] "root" emptyDisk
    = (Throw (Error "ENOENT"), emptyDisk, 1) ∧
  saveActivities idleBrowse beforeLogin ["output"; "Algebra (1)"] "root"
                 emptyDisk
    = (Throw (Error "ENOENT"), emptyDisk, 1) ∧
  Error "ENOENT" ≠ NotLoggedInError ∧
  saveMessages idleBrowse beforeLogin ["output"] "root" outputDisk
    = (Throw NotLoggedInError,
       mkWorld ({[ ["output"; "Messages"] ]} ∪ {[ []; ["output"] ]}) [], 1).
Proof.
  split; [reflexivity|]. split; [reflexivity|]. split; [reflexivity|].
  split; [vm_compute; reflexivity|]. split; [vm_compute; reflexivity|].
  split; [discriminate|]. vm_compute. reflexivity.
Qed.

(** ** [Promise.all] *)





End ScrapeFacts.

(* ===================================================================== *)
(** * Facts about the entry point *)
(* ===================================================================== *)
Module EntryPointFacts.
Import Js EntryPoint.

Lemma exit_default : exit None None = 0%Z.
Proof. reflexivity. Qed.



(** Without credentials in the environment the error of [fromEnv] is printed
    and the status is still 0. *)
Lemma main_without_username stack report p login saveClasses :
  main stack report (mkEnv None p) login saveClasses =
  mkProcess [["Error:"; "No USERNAME in environment.";
              stack (Error "No USERNAME in environment.")]] [] (Some 0%Z).
Proof. reflexivity. Qed.

Lemma fromEnv_missing_username env :
  missing (USERNAME env) →
  fromEnv env = inl (Error "No USERNAME in environment.").
Proof. unfold fromEnv. by intros [-> | ->]. Qed.

Lemma fromEnv_missing_password env :
  ¬ missing (USERNAME env) → missing (PASSWORD env) →
  fromEnv env = inl (Error "No PASSWORD in environment.").
Proof.
  unfold fromEnv, missing. intros Hu Hp.
  destruct (USERNAME env) as [[|c u]|]; [tauto| |tauto].
  by destruct Hp as [-> | ->].
Qed.

(** X16 (credentials are checked before anything is started). [fromEnv]
    gives a strategy exactly when both variables are set and not empty. When
    one is missing, neither [login] nor [saveClasses] has any part in what
    the program does: it prints the error that names the variable, the
    user name first, and exits with status 0. *)
Theorem credentials_checked_first (stack : Thrown → string)
    (report : Thrown → list string) (env : Env) :
  (∀ u p, fromEnv env = inr (u, p) ↔
          USERNAME env = Some u ∧ u ≠ EmptyString ∧
          PASSWORD env = Some p ∧ p ≠ EmptyString) ∧
  (missing (USERNAME env) → ∀ login saveClasses,
     main stack report env login saveClasses =
     mkProcess [["Error:"; "No USERNAME in environment.";
                 stack (Error "No USERNAME in environment.")]]
               [] (Some 0%Z)) ∧
  (¬ missing (USERNAME env) → missing (PASSWORD env) → ∀ login saveClasses,
     main stack report env login saveClasses =
     mkProcess [["Error:"; "No PASSWORD in environment.";
                 stack (Error "No PASSWORD in environment.")]]
               [] (Some 0%Z)).
Proof.
  split; [|split].
  - intros u p. unfold fromEnv.
    destruct (USERNAME env) as [[|c u']|].
    + split; [discriminate|]. intros (H & Hne & _). by injection H as <-.
    + destruct (PASSWORD env) as [[|d p']|].
      * split; [discriminate|]. intros (_ & _ & H & Hne). by injection H as <-.
      * split.
        -- intros H. by injection H as <- <-.
        -- intros (H1 & _ & H2 & _). congruence.
      * split; [discriminate|]. intros (_ & _ & H & _). discriminate.
    + split; [discriminate|]. intros (H & _). discriminate.
  - intros Hu login saveClasses. unfold main, tryBlock.
    by rewrite (fromEnv_missing_username env Hu).
  - intros Hu Hp login saveClasses. unfold main, tryBlock.
    by rewrite (fromEnv_missing_password env Hu Hp).
Qed.

End EntryPointFacts.

(* ===================================================================== *)
(** * Facts about numbered file names *)
(* ===================================================================== *)
Module NamesFacts.
Import Sanitize Names.

(** ** Decimal digits *)

Lemma digitsLE_digit fuel n : Forall (λ d, d < 10) (digitsLE fuel n).
Proof.
  revert n. induction fuel as [|fuel IH]; intros n; cbn [digitsLE];
    [constructor|].
  destruct (Nat.ltb_spec n 10).
  - constructor; [done | constructor].
  - constructor; [|apply IH]. apply Nat.mod_upper_bound. lia.
Qed.

Lemma digitsLE_value fuel n : n < fuel → valueLE (digitsLE fuel n) = n.
Proof.
  revert n. induction fuel as [|fuel IH]; intros n Hn; [lia|].
  cbn [digitsLE].
  destruct (Nat.ltb_spec n 10); cbn [valueLE]; [lia|].
  pose proof (Nat.div_mod_eq n 10) as Hdm.
  rewrite IH; lia.
Qed.

(** A number with [k] digits lies between [10 ^ (k - 1)] and [10 ^ k]. *)
Lemma digitsLE_size fuel n :
  n < fuel →
  1 ≤ length (digitsLE fuel n) ∧
  n < 10 ^ length (digitsLE fuel n) ∧
  (0 < n → 10 ^ (length (digitsLE fuel n) - 1) ≤ n).
Proof.
  revert n. induction fuel as [|fuel IH]; intros n Hn; [lia|].
  cbn [digitsLE].
  destruct (Nat.ltb_spec n 10); cbn [length].
  - change (10 ^ 1) with 10. change (10 ^ (1 - 1)) with 1. lia.
  - pose proof (Nat.div_mod_eq n 10) as Hdm.
    pose proof (Nat.mod_upper_bound n 10) as Hmod.
    destruct (IH (n / 10)) as (H1 & H2 & H3); [lia|].
    set (k := length (digitsLE fuel (n / 10))) in *.
    split; [lia|]. split.
    + rewrite Nat.pow_succ_r'. lia.
    + intros _. replace (S k - 1) with (S (k - 1)) by lia.
      rewrite Nat.pow_succ_r'. lia.
Qed.

Lemma digits_length n : length (digits n) = length (digitsLE (S n) n).
Proof. unfold digits. apply length_rev. Qed.

Lemma toString_length n : length (toString n) = length (digits n).
Proof. unfold toString. apply length_fmap. Qed.

(** A smaller number has no more digits. *)
Lemma digits_length_mono i n : i ≤ n → length (digits i) ≤ length (digits n).
Proof.
  intros Hle. rewrite !digits_length.
  destruct (digitsLE_size (S i) i) as (Hi1 & Hi2 & Hi3); [lia|].
  destruct (digitsLE_size (S n) n) as (Hn1 & Hn2 & Hn3); [lia|].
  destruct (decide (i = 0)) as [->|Hpos]; [exact Hn1|].
  destruct (Nat.le_gt_cases (length (digitsLE (S i) i))
                            (length (digitsLE (S n) n))) as [?|Hgt]; [done|].
  assert (10 ^ length (digitsLE (S n) n)
          ≤ 10 ^ (length (digitsLE (S i) i) - 1))
    by (apply Nat.pow_le_mono_r; lia).
  specialize (Hi3 ltac:(lia)). lia.
Qed.

Lemma valueLE_app a b :
  valueLE (a ++ b) = valueLE a + 10 ^ length a * valueLE b.
Proof.
  induction a as [|d a IH]; simpl; [lia|]. rewrite IH. lia.
Qed.

Lemma valueLE_bound ds :
  Forall (λ d, d < 10) ds → valueLE ds < 10 ^ length ds.
Proof.
  induction 1 as [|d ds Hd _ IH]; simpl; lia.
Qed.

Lemma valueLE_zeros z : valueLE (replicate z 0) = 0.
Proof. induction z as [|z IH]; simpl; lia. Qed.

(** ** Padded numbers as digit lists *)

Lemma padStart_digits w i :
  padStart (toString i) w = digitChar <$> padDigits w i.
Proof.
  unfold padStart, padDigits. rewrite toString_length, fmap_app.
  f_equal. by rewrite fmap_replicate.
Qed.

Lemma padDigits_digit w i : Forall (λ d, d < 10) (padDigits w i).
Proof.
  unfold padDigits. apply Forall_app. split.
  - apply Forall_replicate. lia.
  - unfold digits. apply Forall_rev, digitsLE_digit.
Qed.

Lemma padDigits_value w i : valueLE (rev (padDigits w i)) = i.
Proof.
  unfold padDigits, digits. rewrite rev_app_distr, rev_involutive.
  rewrite valueLE_app, digitsLE_value by lia.
  assert (rev (replicate (w - length (rev (digitsLE (S i) i))) 0)
          = replicate (w - length (rev (digitsLE (S i) i))) 0) as ->.
  { generalize (w - length (rev (digitsLE (S i) i))). intros z.
    induction z as [|z IH]; [done|].
    rewrite replicate_S_end at 1. rewrite rev_app_distr. simpl.
    by rewrite IH. }
  rewrite valueLE_zeros. lia.
Qed.

Lemma padDigits_length w i :
  length (digits i) ≤ w → length (padDigits w i) = w.
Proof.
  intros H. unfold padDigits. rewrite length_app, length_replicate. lia.
Qed.

(** Digit lists of one length compare as their values do. *)
Lemma lexLt_digits (a b : list nat) :
  length a = length b →
  Forall (λ d, d < 10) a → Forall (λ d, d < 10) b →
  valueLE (rev a) < valueLE (rev b) →
  lexLt (digitChar <$> a) (digitChar <$> b).
Proof.
  revert b. induction a as [|x a IH]; intros [|y b] Hlen Ha Hb Hlt;
    simpl in *; try lia.
  apply Forall_cons in Ha as [Hx Ha]. apply Forall_cons in Hb as [Hy Hb].
  rewrite !valueLE_app in Hlt. simpl in Hlt.
  rewrite !length_rev in Hlt.
  assert (Hl : length a = length b) by lia. rewrite Hl in Hlt.
  pose proof (valueLE_bound (rev a) (Forall_rev Ha)) as Hba.
  pose proof (valueLE_bound (rev b) (Forall_rev Hb)) as Hbb.
  rewrite length_rev in Hba, Hbb. rewrite Hl in Hba.
  destruct (Nat.lt_trichotomy x y) as [Hxy|[->|Hxy]].
  - left. unfold digitChar. lia.
  - right. split; [done|]. apply IH; try done. lia.
  - exfalso. nia.
Qed.

Lemma lexLt_app (a b x y : JSString) :
  length a = length b → lexLt a b → lexLt (a ++ x) (b ++ y).
Proof.
  revert b. induction a as [|c a IH]; intros [|d b] Hlen H; simpl in *;
    try done.
  destruct H as [?|[-> ?]]; [by left|]. right. split; [done|].
  apply IH; [lia | done].
Qed.

Lemma lexLt_irrefl (a : JSString) : ¬ lexLt a a.
Proof.
  induction a as [|c a IH]; simpl; [tauto|]. intros [?|[_ ?]]; [lia|tauto].
Qed.

Section Numbered.

Variable upperNonAscii : CodeUnit → option CodeUnit.
Variable size : nat.

Lemma pad_digits i : pad size i = digitChar <$> padDigits (padLength size) i.
Proof. apply padStart_digits. Qed.

Lemma pad_length i : i ≤ size → length (pad size i) = padLength size.
Proof.
  intros H. rewrite pad_digits, length_fmap. apply padDigits_length.
  unfold padLength. rewrite toString_length. by apply digits_length_mono.
Qed.

Lemma pad_lexLt i j : i < j → j ≤ size → lexLt (pad size i) (pad size j).
Proof.
  intros Hij Hj. rewrite !pad_digits. apply lexLt_digits.
  - rewrite <- !(length_fmap digitChar), <- !pad_digits.
    rewrite !pad_length by lia. done.
  - apply padDigits_digit.
  - apply padDigits_digit.
  - by rewrite !padDigits_value.
Qed.

(** Digits and the space are left alone by [sanitizeFilename]. *)
Lemma sanitize_numbered i (rest : JSString) :
  sanitizeFilename upperNonAscii (pad size i ++ [32%N] ++ rest)
  = pad size i ++ [32%N] ++ sanitizeFilename upperNonAscii rest.
Proof.
  unfold sanitizeFilename. rewrite !fmap_app.
  assert (Hpad : (λ ch, if matchesNegatedClass upperNonAscii ch
                        then 95%N else ch) <$> pad size i = pad size i).
  { rewrite pad_digits, <- list_fmap_compose.
    apply Forall_fmap_ext_1.
    eapply Forall_impl; [apply (padDigits_digit (padLength size) i)|].
    intros d Hd. unfold compose. cbn beta in Hd |- *.
    rewrite (SanitizeFacts.matches_ascii upperNonAscii (digitChar d))
      by (unfold digitChar; lia).
    assert (inClass (digitChar d) = true) as ->; [|done].
    unfold inClass, digitChar.
    assert ((48 <=? N.of_nat (48 + d))%N = true) as -> by (apply N.leb_le; lia).
    assert ((N.of_nat (48 + d) <=? 57)%N = true) as -> by (apply N.leb_le; lia).
    cbn [andb]. by rewrite !orb_true_r. }
  rewrite Hpad. change ([32%N] ++ ?r) with (32%N :: r).
  cbn [fmap list_fmap app].
  rewrite (SanitizeFacts.matches_ascii upperNonAscii 32) by done.
  reflexivity.
Qed.

(** X10 (numbered names keep the order of the pages). In [savePages] the
    file names of two pages [i < j] of a class with [size] pages start with
    numbers of the same width, so the name of page [i] comes before the name
    of page [j] in the order of strings, whatever the two titles are; in
    particular no two pages are written to the same file. The same holds for
    the directories of the discussions, numbered from 1. *)
Theorem numbered_names_ordered (i j : nat) (t1 t2 : JSString) :
  i < j → j < size →
  length (pad size i) = padLength size ∧
  lexLt (pageFile upperNonAscii size i t1) (pageFile upperNonAscii size j t2) ∧
  pageFile upperNonAscii size i t1 ≠ pageFile upperNonAscii size j t2 ∧
  lexLt (discussionDir upperNonAscii size i t1)
        (discussionDir upperNonAscii size j t2).
Proof.
  intros Hij Hj.
  assert (Hpages : lexLt (pageFile upperNonAscii size i t1)
                         (pageFile upperNonAscii size j t2)).
  { unfold pageFile. rewrite !sanitize_numbered, <- !app_assoc.
    apply lexLt_app; [rewrite !pad_length by lia; done|].
    apply pad_lexLt; lia. }
  split; [apply pad_length; lia|]. split; [done|]. split.
  - intros Heq. rewrite Heq in Hpages. by apply lexLt_irrefl in Hpages.
  - unfold discussionDir. rewrite !sanitize_numbered.
    apply lexLt_app; [rewrite !pad_length by lia; done|].
    apply pad_lexLt; lia.
Qed.

End Numbered.

Lemma numbered_names_ordered_witness :
  length (pad 12 2) = padLength 12 ∧
  lexLt (pageFile (λ _, None) 12 2 [90; 47]%N)
        (pageFile (λ _, None) 12 10 [65]%N) ∧
  pageFile (λ _, None) 12 2 [90; 47]%N ≠ pageFile (λ _, None) 12 10 [65]%N ∧
  lexLt (discussionDir (λ _, None) 12 2 [90; 47]%N)
        (discussionDir (λ _, None) 12 10 [65]%N).
Proof.
  apply (numbered_names_ordered (λ _, None) 12 2 10 [90; 47]%N [65]%N); lia.
Defined.

End NamesFacts.

(* ===================================================================== *)
(** * Facts about [PasswordLoginStrategy.login] *)
(* ===================================================================== *)
Module LoginFacts.
Import Js Login.

Lemma login_formFilled pg :
  formFilled pg →
  login pg =
  match noteAfterSubmit pg with
  | Undefined | Null => inr ()
  | Present _ =>
      match noteText pg with
      | inl e => inl e
      | inr text =>
          if String.eqb text ERROR_TEXT then inl (Error ERROR_TEXT)
          else inr ()
      end
  end.
Proof.
  intros (H1 & H2 & H3 & H4 & H5). unfold login.
  by rewrite H1, H2, H3, H4, H5.
Qed.

(** X12 (when the strategy reports refused credentials). On a page whose
    form takes the credentials and whose note can be read, [login] either
    fulfils or rejects with the text of the refusal, and it rejects exactly
    when the navigation is seen, the note is found and its text is that
    text. A navigation that is not seen in time makes [login] fulfil
    whatever the page shows. *)
Theorem login_verdict (pg : LoginPage) :
  formFilled pg →
  (∀ e, noteText pg ≠ inl e) →
  (login pg = inr () ∨ login pg = inl (Error ERROR_TEXT)) ∧
  (login pg = inl (Error ERROR_TEXT) ↔
   navigation pg = Fulfils ∧ note pg = inr (Present ()) ∧
   noteText pg = inr ERROR_TEXT) ∧
  (navigation pg ≠ Fulfils → login pg = inr ()).
Proof.
  intros Hform Htext. rewrite (login_formFilled pg Hform).
  unfold noteAfterSubmit.
  destruct (navigation pg) as [|e] eqn:Hnav.
  2:{ split; [by left|]. split; [|done]. split; [done | by intros (? & _)]. }
  destruct (note pg) as [e|[| |[]]] eqn:Hnote;
    try (split; [by left|]; split; [|done];
         split; [done | by intros (_ & ? & _)]).
  destruct (noteText pg) as [e|text] eqn:Htxt; [by destruct (Htext e)|].
  destruct (String.eqb_spec text ERROR_TEXT) as [->|Hne].
  - split; [by right|]. split; [|done]. done.
  - split; [by left|]. split; [|done].
    split; [done|]. intros (_ & _ & ?). congruence.
Qed.

Lemma login_verdict_witness :
  (login refusedPage = inr () ∨ login refusedPage = inl (Error ERROR_TEXT)) ∧
  (login refusedPage = inl (Error ERROR_TEXT) ↔
   navigation refusedPage = Fulfils ∧ note refusedPage = inr (Present ()) ∧
   noteText refusedPage = inr ERROR_TEXT) ∧
  (navigation refusedPage ≠ Fulfils → login refusedPage = inr ()).
Proof.
  apply (login_verdict refusedPage).
  - by repeat split.
  - intros e. discriminate.
Defined.

End LoginFacts.

(* ===================================================================== *)
(** * Facts about [PowerSchoolSave.login] *)
(* ===================================================================== *)
Module SessionFacts.
Import Js Scrape Session.

(** ** The directories *)

Lemma rm_mkdir (p : Path) (w : World) :
  p ∈ dirs w → p ≠ [] → dirname p ∈ dirs w →
  ∃ w', (rm p ≫= λ _, mkdir p) w = (Ok (), w', 2) ∧
        p ∈ dirs w' ∧
        (∀ q, q ∈ dirs w' → p `prefix_of` q → q = p) ∧
        (∀ q, ¬ p `prefix_of` q → q ∈ dirs w' ↔ q ∈ dirs w).
Proof.
  intros Hp Hne Hparent. unfold mbind, M_bind, rm, mkdir.
  rewrite decide_True by done. simpl.
  rewrite decide_False.
  2:{ rewrite elem_of_filter. intros [Hn _]. by apply Hn. }
  rewrite decide_True.
  2:{ apply elem_of_filter. split; [|done].
      intros Hpre. apply prefix_length in Hpre. unfold dirname in Hpre.
      destruct (@exists_last _ p Hne) as (l & x & ->).
      rewrite removelast_last, length_app in Hpre. simpl in Hpre. lia. }
  eexists. split; [done|]. simpl. split; [|split].
  - apply elem_of_union. left. by apply elem_of_singleton.
  - intros q Hq Hpre. apply elem_of_union in Hq as [Hq|Hq].
    + by apply elem_of_singleton in Hq.
    + apply elem_of_filter in Hq as [Hn _]. by destruct Hn.
  - intros q Hn. rewrite elem_of_union, elem_of_singleton, elem_of_filter.
    split.
    + intros [->|[_ ?]]; [by destruct Hn | done].
    + intros ?. right. done.
Qed.

(** Where the directory can be emptied, [login] goes on to the browser. *)
Lemma loginRun_withBrowser this b w :
  out this ∈ dirs w → out this ≠ [] → dirname (out this) ∈ dirs w →
  ∃ w', loginRun this b w = withBrowser this b w' ∧
        out this ∈ dirs w' ∧
        (∀ q, q ∈ dirs w' → out this `prefix_of` q → q = out this) ∧
        (∀ q, ¬ out this `prefix_of` q → q ∈ dirs w' ↔ q ∈ dirs w).
Proof.
  intros Hin Hne Hparent.
  destruct (rm_mkdir (out this) w Hin Hne Hparent) as (w' & Hw' & Hprops).
  exists w'. split; [|done].
  unfold mbind, M_bind in Hw'. unfold loginRun.
  destruct (rm (out this) w) as [[[[]|e] w1] t1]; [|done].
  destruct (mkdir (out this) w1) as [[[[]|e] w2] t2]; [|done].
  by simplify_eq.
Qed.

Lemma withBrowser_disk this b w : disk (withBrowser this b w) = w.
Proof.
  unfold withBrowser. destruct (launch b); [|done].
  destruct (Pool.promises _ !! 0) as [[| |]|]; try done.
  destruct (goto b); [|done].
  destruct (strategyLogin b); [|done].
  by destruct (closeTab b).
Qed.

(** X13 ([login] and the output directory). [login] rejects with the error
    of [fs.rm], before the browser is launched and with the pool unset, when
    the output directory does not exist. When it exists, in its parent,
    whatever happens next the directory is there afterwards, nothing is left
    below it, and no directory outside it is touched. *)
Theorem login_output_directory (this : PowerSchoolSave) (b : Answers)
    (w : World) :
  (out this ∉ dirs w →
   login this b w = (Done (Throw (Error "ENOENT")), this, w)) ∧
  (out this ∈ dirs w → out this ≠ [] → dirname (out this) ∈ dirs w →
   out this ∈ dirs (login this b w).2 ∧
   (∀ q, q ∈ dirs (login this b w).2 → out this `prefix_of` q → q = out this) ∧
   (∀ q, ¬ out this `prefix_of` q →
         q ∈ dirs (login this b w).2 ↔ q ∈ dirs w)).
Proof.
  split.
  - intros Hno. unfold login, loginRun, rm. by rewrite decide_False.
  - intros Hin Hne Hparent.
    destruct (loginRun_withBrowser this b w Hin Hne Hparent)
      as (w' & Hrun & Hprops).
    assert ((login this b w).2 = w') as ->; [|done].
    unfold login. simpl. by rewrite Hrun, withBrowser_disk.
Qed.

Lemma login_output_directory_witness :
  out beforeLogin ∈ dirs (login beforeLogin allFulfil outputDisk).2 ∧
  (∀ q, q ∈ dirs (login beforeLogin allFulfil outputDisk).2 →
        out beforeLogin `prefix_of` q → q = out beforeLogin) ∧
  (∀ q, ¬ out beforeLogin `prefix_of` q →
        q ∈ dirs (login beforeLogin allFulfil outputDisk).2
        ↔ q ∈ dirs outputDisk).
Proof.
  apply (proj2 (login_output_directory beforeLogin allFulfil outputDisk)).
  - apply elem_of_union. right. by apply elem_of_singleton.
  - discriminate.
  - apply elem_of_union. left. by apply elem_of_singleton.
Defined.

(** ** The pool of [login] *)

Lemma firstPass_served b mx :
  (0 < mx)%Z → newPage b = Fulfils → setViewport b = Fulfils →
  firstPass b mx =
  Pool.mkWorld (Pool.mkTabs [0] [] mx 1) (Pool.mkBrowser 1 ∅) Pool.Sleeping
               [Pool.Fulfilled 0] [(0, 0)].
Proof.
  intros Hmx Hn Hv. unfold firstPass.
  rewrite (PoolFacts.admitPending_serves _ 0 []); [|simpl; lia|done].
  simpl. rewrite Hn, Hv. unfold Pool.pushAndResolve. simpl.
  unfold Pool.admitPending. simpl. by destruct (_ <? _)%Z.
Qed.

Lemma firstPass_idle b mx :
  (mx ≤ 0)%Z →
  firstPass b mx =
  Pool.mkWorld (Pool.mkTabs [] [0] mx 0) (Pool.mkBrowser 0 ∅) Pool.Sleeping
               [Pool.Unsettled] [].
Proof.
  intros Hmx. unfold firstPass.
  rewrite PoolFacts.admitPending_full by (simpl; lia). done.
Qed.

Lemma firstPass_crashed b mx :
  (0 < mx)%Z →
  (∃ e, newPage b = Rejects e) ∨
  (newPage b = Fulfils ∧ ∃ e, setViewport b = Rejects e) →
  Pool.loop (firstPass b mx) = Pool.Crashed ∧
  Pool.promises (firstPass b mx) = [Pool.Unsettled].
Proof.
  intros Hmx H. unfold firstPass.
  rewrite (PoolFacts.admitPending_serves _ 0 []); [|simpl; lia|done].
  simpl. destruct H as [[e ->]|[-> [e ->]]]; done.
Qed.

Lemma exec_promises_length e w w' :
  Pool.exec e w = Some w' →
  length (Pool.promises w) ≤ length (Pool.promises w').
Proof.
  intros H. apply PoolFacts.exec_step in H. destruct H; simpl; try done.
  - rewrite length_app. lia.
  - by rewrite PoolFacts.admitPending_promises.
  - unfold Pool.pushAndResolve. rewrite PoolFacts.admitPending_promises.
    simpl. unfold Pool.resolve.
    destruct (_ !! _) as [[| |]|]; try done. by rewrite length_insert.
Qed.

Lemma run_idle es w w' :
  (Pool.max (Pool.pool w) ≤ 0)%Z → Pool.idleInv w →
  Pool.run es w = Some w' →
  Pool.idleInv w' ∧
  length (Pool.promises w) ≤ length (Pool.promises w').
Proof.
  revert w. induction es as [|e es IH]; intros w Hmx Hidle Hrun;
    simpl in Hrun.
  - by simplify_eq.
  - destruct (Pool.exec e w) as [w1|] eqn:He; [|done].
    pose proof (exec_promises_length e w w1 He).
    destruct (IH w1) as [? ?]; [|by eapply PoolFacts.exec_idle|done|].
    + by rewrite (PoolFacts.exec_max e w w1).
    + split; [done | lia].
Qed.

(** An open page of the pool stays in it, open, as long as no page is
    closed. *)
Lemma open_page_stays e p p' (t : nat) :
  Pool.isClose e = false →
  t ∈ Pool.tabs (Pool.pool p) → Pool.isClosed (Pool.browser p) t = false →
  Pool.exec e p = Some p' →
  t ∈ Pool.tabs (Pool.pool p') ∧ Pool.isClosed (Pool.browser p') t = false.
Proof.
  intros He Hin Hopen H. apply PoolFacts.exec_step in H.
  destruct H; simpl in *; try done.
  - split; [|done]. rewrite PoolFacts.cullDeadTabs_skip.
    by apply PoolFacts.cullSkip_keeps_open.
  - by rewrite PoolFacts.admitPending_tabs, PoolFacts.admitPending_browser.
  - unfold Pool.pushAndResolve.
    rewrite PoolFacts.admitPending_tabs, PoolFacts.admitPending_browser.
    simpl. split; [|done]. apply elem_of_app. by left.
Qed.

Lemma open_page_stays_run es p p' (t : nat) :
  Forall (λ e, Pool.isClose e = false) es →
  t ∈ Pool.tabs (Pool.pool p) → Pool.isClosed (Pool.browser p) t = false →
  Pool.run es p = Some p' →
  t ∈ Pool.tabs (Pool.pool p') ∧ Pool.isClosed (Pool.browser p') t = false.
Proof.
  intros Hes. revert p.
  induction Hes as [|e es He _ IH]; intros p Hin Hopen Hrun; simpl in Hrun.
  - by simplify_eq.
  - destruct (Pool.exec e p) as [p1|] eqn:Hx; [|done].
    destruct (open_page_stays e p p1 t He Hin Hopen Hx) as [? ?]. eauto.
Qed.

(** X14 (a refused login leaves the pool set). When the output directory
    can be emptied, the browser starts, the pool has room and only
    [strategy.login] rejects, [login] rejects with that error; [this.tabs] is
    set all the same, so the guard of the scraping operations lets them
    through from then on; and [login] ends without closing its tab: in the
    pool it leaves, the tab is there and open, and it stays there, open,
    through any later step of the pool in which no page is closed. A login
    in which every call fulfils leaves the tab closed. *)
Theorem refused_login_sets_pool (this : PowerSchoolSave) (e : Thrown)
    (w : World) :
  out this ∈ dirs w → out this ≠ [] → dirname (out this) ∈ dirs w →
  (0 < maxTabs this)%Z →
  (login this (refuses e) w).1 = (Done (Throw e), loggedIn this) ∧
  (∀ w0, guard (loggedIn this) w0 = (Ok 0, w0, 0)) ∧
  (∃ p, tabsPool (loginRun this (refuses e) w) = Some p ∧
        Pool.tabs (Pool.pool p) = [0] ∧
        Pool.isClosed (Pool.browser p) 0 = false ∧
        (∀ es p', Forall (λ ev, Pool.isClose ev = false) es →
                  Pool.run es p = Some p' →
                  0 ∈ Pool.tabs (Pool.pool p') ∧
                  Pool.isClosed (Pool.browser p') 0 = false)) ∧
  (∃ q, tabsPool (loginRun this allFulfil w) = Some q ∧
        Pool.isClosed (Pool.browser q) 0 = true).
Proof.
  intros Hin Hne Hparent Hmx.
  destruct (loginRun_withBrowser this (refuses e) w Hin Hne Hparent)
    as (w1 & Hrun1 & _).
  destruct (loginRun_withBrowser this allFulfil w Hin Hne Hparent)
    as (w2 & Hrun2 & _).
  assert (Hrefused : withBrowser this (refuses e) w1 =
            mkLoginRun (Done (Throw e)) (loggedIn this) w1
                       (Some (firstPass (refuses e) (maxTabs this)))).
  { unfold withBrowser.
    by rewrite (firstPass_served (refuses e) (maxTabs this)). }
  assert (Hfine : withBrowser this allFulfil w2 =
            mkLoginRun (Done (Ok ())) (loggedIn this) w2
                       (Some (Pool.closePage 0
                                (firstPass allFulfil (maxTabs this))))).
  { unfold withBrowser.
    by rewrite (firstPass_served allFulfil (maxTabs this)). }
  split; [|split; [done|split]].
  - unfold login. by rewrite Hrun1, Hrefused.
  - exists (firstPass (refuses e) (maxTabs this)).
    rewrite Hrun1, Hrefused. split; [done|].
    rewrite (firstPass_served (refuses e) (maxTabs this)) by done.
    split; [done|]. split; [done|].
    intros es p' Hes Hrun.
    eapply (open_page_stays_run es _ p' 0 Hes); [| |exact Hrun].
    + simpl. by left.
    + done.
  - eexists. rewrite Hrun2, Hfine. split; [done|].
    rewrite (firstPass_served allFulfil (maxTabs this)) by done.
    unfold Pool.isClosed. simpl. apply bool_decide_eq_true.
    apply elem_of_union. left. by apply elem_of_singleton.
Qed.

Lemma refused_login_sets_pool_witness :
  (login beforeLogin (refuses (Error Login.ERROR_TEXT)) outputDisk).1
  = (Done (Throw (Error Login.ERROR_TEXT)), loggedIn beforeLogin) ∧
  (∀ w0, guard (loggedIn beforeLogin) w0 = (Ok 0, w0, 0)) ∧
  (∃ p, tabsPool (loginRun beforeLogin (refuses (Error Login.ERROR_TEXT))
                           outputDisk) = Some p ∧
        Pool.tabs (Pool.pool p) = [0] ∧
        Pool.isClosed (Pool.browser p) 0 = false ∧
        (∀ es p', Forall (λ ev, Pool.isClose ev = false) es →
                  Pool.run es p = Some p' →
                  0 ∈ Pool.tabs (Pool.pool p') ∧
                  Pool.isClosed (Pool.browser p') 0 = false)) ∧
  (∃ q, tabsPool (loginRun beforeLogin allFulfil outputDisk) = Some q ∧
        Pool.isClosed (Pool.browser q) 0 = true).
Proof.
  apply (refused_login_sets_pool beforeLogin (Error Login.ERROR_TEXT)
                                 outputDisk).
  - apply elem_of_union. right. by apply elem_of_singleton.
  - discriminate.
  - apply elem_of_union. left. by apply elem_of_singleton.
  - reflexivity.
Defined.

(** X15 ([login] that never settles). When the output directory can be
    emptied and the browser starts, but the pool has no capacity
    ([maxTabs] is 0 or less, which the constructor accepts) or the creation of
    its first page rejects, [login] does not get past
    [await this.tabs.create()]: the promise of that call is unsettled after
    the first pass, and no later step of the pool settles it. *)
Theorem login_never_settles (this : PowerSchoolSave) (b : Answers)
    (w : World) :
  out this ∈ dirs w → out this ≠ [] → dirname (out this) ∈ dirs w →
  launch b = Fulfils →
  (maxTabs this ≤ 0)%Z ∨ (∃ e, newPage b = Rejects e) ∨
  (newPage b = Fulfils ∧ ∃ e, setViewport b = Rejects e) →
  (login this b w).1 = (Pending, loggedIn this) ∧
  (∀ es w', Pool.run es (firstPass b (maxTabs this)) = Some w' →
            Pool.promises w' !! 0 = Some Pool.Unsettled).
Proof.
  intros Hin Hne Hparent Hlaunch Hwhy.
  assert (Hfirst : Pool.promises (firstPass b (maxTabs this)) !! 0
                   = Some Pool.Unsettled ∧
                   ∀ es w', Pool.run es (firstPass b (maxTabs this)) = Some w' →
                            Pool.promises w' !! 0 = Some Pool.Unsettled).
  { destruct (Z.le_gt_cases (maxTabs this) 0) as [Hmx|Hmx].
    - rewrite (firstPass_idle b (maxTabs this) Hmx). split; [done|].
      intros es w' Hrun.
      match type of Hrun with
      | Pool.run _ ?W = _ =>
          destruct (run_idle es W w' Hmx) as [Hidle Hlen]; [|done|]
      end.
      + repeat split; simpl; try done; [by right | by repeat constructor].
      + destruct Hidle as (_ & _ & _ & _ & Hall & _). simpl in Hlen.
        destruct (Pool.promises w') as [|st sts]; [simpl in Hlen; lia|].
        apply Forall_cons in Hall as [-> _]. done.
    - destruct Hwhy as [?|Hwhy]; [lia|].
      destruct (firstPass_crashed b (maxTabs this)) as [Hl Hp]; [lia|done|].
      split; [by rewrite Hp|].
      intros es w' Hrun.
      apply (PoolFacts.crashed_forever es (firstPass b (maxTabs this)));
        [done|done|by rewrite Hp]. }
  split; [|apply Hfirst].
  destruct Hfirst as [Hp0 _].
  destruct (loginRun_withBrowser this b w Hin Hne Hparent) as (w' & Hrun & _).
  unfold login. rewrite Hrun. unfold withBrowser.
  by rewrite Hlaunch, Hp0.
Qed.

Lemma login_never_settles_witness :
  (login (newPowerSchoolSave "https://mylearning.powerschool.com" ["output"]
                             (mkOptions None (Some 0%Z)))
         allFulfil outputDisk).1
  = (Pending,
     loggedIn (newPowerSchoolSave "https://mylearning.powerschool.com"
                                  ["output"] (mkOptions None (Some 0%Z)))) ∧
  (∀ es w',
     Pool.run es
       (firstPass allFulfil
          (maxTabs (newPowerSchoolSave "https://mylearning.powerschool.com"
                                       ["output"] (mkOptions None (Some 0%Z)))))
     = Some w' →
     Pool.promises w' !! 0 = Some Pool.Unsettled).
Proof.
  apply (login_never_settles
           (newPowerSchoolSave "https://mylearning.powerschool.com" ["output"]
                               (mkOptions None (Some 0%Z)))
           allFulfil outputDisk).
  - apply elem_of_union. right. by apply elem_of_singleton.
  - discriminate.
  - apply elem_of_union. left. by apply elem_of_singleton.
  - reflexivity.
  - left. reflexivity.
Defined.

End SessionFacts.
